(** * HearHere: the streaming transcription session of [alphaVersion.py]

    A shallow embedding of the session logic of [src/alphaVersion.py]:
    the handshake of [connect_and_transcribe], the receive loop of
    [receive_transcription] with its partial/final reconciliation, the
    capture loop of [listen_and_stream] / [restart_stream], the shutdown
    hook [on_closing] and the end of the script after [root.mainloop()].

    Every blocking call of the program (socket receive, socket send,
    connection set-up, microphone read) takes its outcome from a script
    supplied by the environment, so each loop is a structural recursion on
    its script; a loop whose script is used up is still running, blocked in
    its next call. The capture loop re-enters itself by nested calls, so it
    also carries the number of Python frames its thread has left. *)

From stdpp Require Import strings gmap list.
From Stdlib Require Import ZArith Lia Ascii.

Local Open Scope string_scope.
Local Open Scope list_scope.

(** ** Transcript reconciliation (lines 167-168, 182-197) *)

(** The two locals of [receive_transcription]. *)
Record TranscriptState := mkTranscript {
  last_partial : string;
  last_final : string
}.

(** [last_partial = ""; last_final = ""] (lines 167-168). *)
Definition empty_transcript : TranscriptState :=
  {| last_partial := ""; last_final := "" |}.

(** What the loop reads out of one recognition message:
    [results[0].alternatives[0].transcript] and [results[0].final]. *)
Record Recognition := mkRecognition {
  transcript : string;
  is_final : bool
}.

Definition PartialText (t : string) : Recognition :=
  {| transcript := t; is_final := false |}.
Definition FinalText (t : string) : Recognition :=
  {| transcript := t; is_final := true |}.

(** The two edits the loop makes to [text_box]. Both are the pair
    [text_box.delete("end-1c linestart", "end"); text_box.insert("end", text)];
    the final branch (lines 185-186) inserts [transcript + " "] and is the
    commit, the interim branch (lines 194-195) inserts [transcript]. *)
Inductive DisplayCommand :=
| ReplaceTrailingLine (text : string)
| CommitLine (text : string).

(** Python's [a != b] on [str]. *)
Definition str_ne (a b : string) : bool := negb (String.eqb a b).

(** Lines 182-197: the body of [if is_final: ... else: ...]. *)
Definition reconcile (r : Recognition) (st : TranscriptState)
  : TranscriptState * option DisplayCommand :=
  if is_final r then
    if str_ne (transcript r) (last_final st) then
      ({| last_partial := ""; last_final := transcript r |},
       Some (CommitLine (transcript r +:+ " ")))
    else (st, None)
  else
    if str_ne (transcript r) (last_partial st) then
      ({| last_partial := transcript r; last_final := last_final st |},
       Some (ReplaceTrailingLine (transcript r)))
    else (st, None).

(** Feeding a sequence of recognitions, collecting the commands in order. *)
Fixpoint reconcile_all (rs : list Recognition) (st : TranscriptState)
  : TranscriptState * list DisplayCommand :=
  match rs with
  | [] => (st, [])
  | r :: rest =>
      let '(st1, out) := reconcile r st in
      let '(st2, outs) := reconcile_all rest st1 in
      (st2, option_list out ++ outs)
  end.

(** ** Base64 ([base64.b64encode], used at line 64)

    A [string] stands for the bytes of the encoded text: three bytes give
    four characters of the alphabet, a last group of one or two bytes is
    padded with [=]. *)
Module Base64.

Definition alphabet : list ascii :=
  String.list_ascii_of_string
    "ABCDEFGHIJKLMNOPQRSTUVWXYZabcdefghijklmnopqrstuvwxyz0123456789+/".

Definition pad : ascii := "="%char.

Definition sextet (n : N) : ascii := nth (N.to_nat n) alphabet pad.

Fixpoint encode_bytes (bs : list N) : list ascii :=
  match bs with
  | [] => []
  | [a] => [sextet (a / 4); sextet ((a mod 4) * 16); pad; pad]
  | [a; b] =>
      [sextet (a / 4); sextet ((a mod 4) * 16 + b / 16);
       sextet ((b mod 16) * 4); pad]
  | a :: b :: c :: rest =>
      sextet (a / 4) :: sextet ((a mod 4) * 16 + b / 16)
        :: sextet ((b mod 16) * 4 + c / 64) :: sextet (c mod 64)
        :: encode_bytes rest
  end%N.

Definition b64encode (s : string) : string :=
  String.string_of_list_ascii
    (encode_bytes (map N_of_ascii (String.list_ascii_of_string s))).

End Base64.

(** ** Messages on the socket *)

(** A JSON value as it may stand under [final], where only its truth value
    is used: null, a boolean, a number, a string, or a list or dict, of
    which it matters only whether it is empty. *)
Inductive Scalar :=
| SNull
| SBool (b : bool)
| SNum (n : Z)
| SStr (s : string)
| SCompound (empty : bool).

(** What may stand under [transcript]: the string the service sends, or
    null. *)
Inductive TranscriptValue :=
| TranscriptNull
| TranscriptStr (s : string).

(** A decoded message is a dict. An entry of a recognition message's
    [results] list is a dict that may hold an [alternatives] list and a
    [final] value, and an alternative is a dict that may hold a
    [transcript]; [None] is a key that is absent. *)
Record Alternative := mkAlternative {
  alt_transcript : option TranscriptValue
}.
Record Result := mkResult {
  alternatives : option (list Alternative);
  final : option Scalar
}.

(** The values a decoded message holds under its keys. *)
Inductive JValue :=
| JStr (s : string)
| JBool (b : bool)
| JNum (n : Z)
| JResults (rs : list Result).

(** [chunk_size] samples of 16-bit audio, as [stream.read] returns them. *)
Definition AudioFrame := list N.

(** What [ws.send] is given: the text of [json.dumps] of a dict (kept as the
    dict's items, in order), or audio bytes with [opcode=0x2]. *)
Inductive Frame :=
| TextFrame (payload : list (string * JValue))
| BinaryFrame (data : AudioFrame).

(** Lines 131-139. *)
Definition init_message : list (string * JValue) :=
  [("action", JStr "start");
   ("content-type", JStr "audio/l16; rate=16000; channels=1");
   ("interim_results", JBool true);
   ("timestamps", JBool false);
   ("inactivity_timeout", JNum (-1))].

(** Python's truth value, as [if is_final:] takes it (line 182). *)
Definition truthy (v : Scalar) : bool :=
  match v with
  | SNull => false
  | SBool b => b
  | SNum n => negb (Z.eqb n 0)
  | SStr s => str_ne s ""
  | SCompound empty => negb empty
  end.

(** What lines 176-177 give. *)
Inductive Extracted :=
| LookupRaises                 (* an index or key lookup raises *)
| NullTranscript               (* both are read, the transcript is null *)
| Recognised (r : Recognition).

(** Lines 176-177: [result_dict["results"][0]["alternatives"][0]["transcript"]]
    and then [result_dict["results"][0]["final"]]. A lookup raises on a
    value that is not a results list, on an empty list and on an absent
    key. *)
Definition first_recognition (result_dict : gmap string JValue) : Extracted :=
  match result_dict !! "results" with
  | Some (JResults (r :: _)) =>
      match alternatives r with
      | Some (a :: _) =>
          match alt_transcript a, final r with
          | Some (TranscriptStr s), Some f =>
              Recognised {| transcript := s; is_final := truthy f |}
          | Some TranscriptNull, Some _ => NullTranscript
          | _, _ => LookupRaises
          end
      | _ => LookupRaises
      end
  | _ => LookupRaises
  end.

(** ** The program's objects *)

Definition Handle := nat.
Definition Timestamp := Z.

(** Lines 99-102. *)
Definition chunk_size : N := 512.
Definition channels : N := 1.
Definition rate : N := 16000.

(** The global [stream]: a PortAudio input stream. *)
Inductive StreamState := StreamActive | StreamStopped | StreamClosed.

(** A connection made by [create_connection]: what it was opened with, the
    frames delivered on it, and whether it is still open. The program has
    no call that closes a socket: the peer closes it (seen as
    [WebSocketConnectionClosedException] by [recv]), or it goes with the
    process. *)
Record Socket := mkSocket {
  sock_url : string;
  sock_header : list string;
  sock_sent : list Frame;
  sock_open : bool
}.

Inductive ThreadTarget :=
| ReceiveThread (ws : Handle)
| CaptureThread (ws : Handle).

Inductive WidgetState := Normal | Disabled.

(** [text_box]: its [state] option and its text (without the newline Tk
    keeps at the very end). *)
Record TextBox := mkTextBox {
  tb_state : WidgetState;
  tb_content : string
}.

Record World := mkWorld {
  stream : StreamState;
  streams_opened : nat;
  audio_terminated : bool;
  sockets : list Socket;
  text_box : TextBox;
  last_update_time : Timestamp;
  threads : list ThreadTarget;
  root_destroyed : bool;
  exited : bool
}.

Definition set_stream (s : StreamState) (w : World) : World :=
  mkWorld s (streams_opened w) (audio_terminated w) (sockets w) (text_box w)
          (last_update_time w) (threads w) (root_destroyed w) (exited w).
Definition set_streams_opened (n : nat) (w : World) : World :=
  mkWorld (stream w) n (audio_terminated w) (sockets w) (text_box w)
          (last_update_time w) (threads w) (root_destroyed w) (exited w).
Definition set_audio_terminated (b : bool) (w : World) : World :=
  mkWorld (stream w) (streams_opened w) b (sockets w) (text_box w)
          (last_update_time w) (threads w) (root_destroyed w) (exited w).
Definition set_sockets (l : list Socket) (w : World) : World :=
  mkWorld (stream w) (streams_opened w) (audio_terminated w) l (text_box w)
          (last_update_time w) (threads w) (root_destroyed w) (exited w).
Definition set_text_box (t : TextBox) (w : World) : World :=
  mkWorld (stream w) (streams_opened w) (audio_terminated w) (sockets w) t
          (last_update_time w) (threads w) (root_destroyed w) (exited w).
Definition set_last_update_time (t : Timestamp) (w : World) : World :=
  mkWorld (stream w) (streams_opened w) (audio_terminated w) (sockets w)
          (text_box w) t (threads w) (root_destroyed w) (exited w).
Definition set_threads (l : list ThreadTarget) (w : World) : World :=
  mkWorld (stream w) (streams_opened w) (audio_terminated w) (sockets w)
          (text_box w) (last_update_time w) l (root_destroyed w) (exited w).
Definition set_root_destroyed (b : bool) (w : World) : World :=
  mkWorld (stream w) (streams_opened w) (audio_terminated w) (sockets w)
          (text_box w) (last_update_time w) (threads w) b (exited w).
Definition set_exited (b : bool) (w : World) : World :=
  mkWorld (stream w) (streams_opened w) (audio_terminated w) (sockets w)
          (text_box w) (last_update_time w) (threads w) (root_destroyed w) b.

(** The state after lines 68-110: window built, [text_box] disabled and
    empty, the microphone stream open, no connection yet. *)
Definition initial_world (now : Timestamp) : World :=
  {| stream := StreamActive; streams_opened := 1; audio_terminated := false;
     sockets := []; text_box := {| tb_state := Disabled; tb_content := "" |};
     last_update_time := now; threads := []; root_destroyed := false;
     exited := false |}.

(** What the program prints. *)
Inductive LogLine :=
| LogConnected
| LogFailedToConnect
| LogFinal (transcript : string)
| LogPartial (transcript : string)
| LogClosedReconnecting
| LogUnexpectedError
| LogAudioStreamingError
| LogAudioStreamClosed.

(** The calls the program makes on the outside world, in the order made.
    [Display c] is the [delete]/[insert] pair of a display command,
    [TextBoxDelete] a [delete] whose [insert] raised. *)
Inductive Action :=
| CreateConnection (url : string) (header : list string) (ws : option Handle)
| WsSend (ws : Handle) (f : Frame) (delivered : bool)
| PrintLine (line : LogLine)
| Sleep (seconds : nat)
| StartThread (t : ThreadTarget) (daemon : bool)
| TextBoxConfig (state : WidgetState)
| Display (c : DisplayCommand)
| TextBoxSee
| StopStream
| CloseStream
| OpenStream (channels rate frames_per_buffer : N)
| Terminate
| RootDestroy
| TextBoxDelete.

(** *** The text widget *)

Definition newline : ascii := ascii_of_nat 10.

(** The text up to the last newline, [None] if there is none. *)
Fixpoint drop_last_line (s : string) : option string :=
  match s with
  | EmptyString => None
  | String c rest =>
      match drop_last_line rest with
      | Some r => Some (String c r)
      | None => if Ascii.eqb c newline then Some EmptyString else None
      end
  end.

(** [text_box.delete("end-1c linestart", "end")]: the last line goes, and
    with it the newline before it (Tk keeps exactly one newline at the
    very end, which [tb_content] leaves out). *)
Definition delete_trailing_line (content : string) : string :=
  default "" (drop_last_line content).

Definition display_text (c : DisplayCommand) : string :=
  match c with ReplaceTrailingLine t => t | CommitLine t => t end.

(** [delete] then [insert("end", text)]; a disabled widget ignores both. *)
Definition apply_display (c : DisplayCommand) (tb : TextBox) : TextBox :=
  match tb_state tb with
  | Normal =>
      {| tb_state := Normal;
         tb_content := delete_trailing_line (tb_content tb) +:+ display_text c |}
  | Disabled => tb
  end.

Definition config_state (s : WidgetState) (tb : TextBox) : TextBox :=
  {| tb_state := s; tb_content := tb_content tb |}.

(** The display commands among a run's actions. *)
Definition displayed (tr : list Action) : list DisplayCommand :=
  omap (fun a => match a with Display c => Some c | _ => None end) tr.

(** ** The program *)

Section Session.

(** [API_KEY] and [URL] of the environment (lines 55-60). *)
Variable api_key : string.
Variable url : string.

(** Lines 63-64. *)
Definition auth_string : string := "apikey:" +:+ api_key.
Definition auth_base64 : string := Base64.b64encode auth_string.

(** Line 126. *)
Definition headers : list string := ["Authorization: Basic " +:+ auth_base64].

(** *** [connect_and_transcribe] (lines 113-148) *)

(** How one pass through the [try] block ends: [create_connection]
    raises, or the connection is made and sending [init_message] raises,
    or both succeed. *)
Inductive ConnectOutcome :=
| ConnectOk
| ConnectRefused
| HandshakeSendFails.

Definition new_socket (sent : list Frame) : Socket :=
  {| sock_url := url; sock_header := headers; sock_sent := sent;
     sock_open := true |}.

(** Lines 130-144, one pass. The handle of a new connection is its index
    in [sockets]. *)
Definition try_connect (o : ConnectOutcome) (w : World)
  : World * list Action * option Handle :=
  let ws := length (sockets w) in
  match o with
  | ConnectRefused => (w, [CreateConnection url headers None], None)
  | HandshakeSendFails =>
      (set_sockets (sockets w ++ [new_socket []]) w,
       [CreateConnection url headers (Some ws);
        WsSend ws (TextFrame init_message) false],
       None)
  | ConnectOk =>
      (set_threads (threads w ++ [ReceiveThread ws])
         (set_sockets (sockets w ++ [new_socket [TextFrame init_message]]) w),
       [CreateConnection url headers (Some ws);
        WsSend ws (TextFrame init_message) true;
        PrintLine LogConnected;
        StartThread (ReceiveThread ws) true],
       Some ws)
  end.

(** The [while True] of lines 128-148, one pass per scripted outcome;
    [None] when the script ends with the loop still retrying. *)
Fixpoint connect_and_transcribe (attempts : list ConnectOutcome) (w : World)
  : World * list Action * option Handle :=
  match attempts with
  | [] => (w, [], None)
  | o :: rest =>
      match try_connect o w with
      | (w1, tr1, Some ws) => (w1, tr1, Some ws)
      | (w1, tr1, None) =>
          let '(w2, tr2, r) := connect_and_transcribe rest w1 in
          (w2, tr1 ++ [PrintLine LogFailedToConnect; Sleep 2] ++ tr2, r)
      end
  end.

(** *** [receive_transcription] (lines 151-209) *)

(** What [ws.recv()] and [json.loads] give: a decoded dict (with the
    reading of the clock the body takes), the closed-connection
    exception, or any other exception. *)
Inductive RecvOutcome :=
| RecvMessage (result_dict : gmap string JValue) (now : Timestamp)
| RecvClosed
| RecvFailed.

(** Lines 178-201 for a message whose recognition has been read out. *)
Definition show_recognition (r : Recognition) (now : Timestamp)
    (st : TranscriptState) (w : World)
  : TranscriptState * World * list Action :=
  let '(st1, out) := reconcile r st in
  let w1 := set_text_box (config_state Normal (text_box w)) w in
  let '(w2, tr) :=
    match out with
    | Some (CommitLine s) =>
        (set_last_update_time now
           (set_text_box (apply_display (CommitLine s) (text_box w1)) w1),
         [Display (CommitLine s); PrintLine (LogFinal (transcript r))])
    | Some (ReplaceTrailingLine s) =>
        (set_text_box (apply_display (ReplaceTrailingLine s) (text_box w1)) w1,
         [Display (ReplaceTrailingLine s); PrintLine (LogPartial (transcript r))])
    | None => (w1, [])
    end in
  (st1,
   set_text_box (config_state Disabled (text_box w2)) w2,
   [TextBoxConfig Normal] ++ tr ++ [TextBoxConfig Disabled; TextBoxSee]).

(** Lines 180-186 and 194-195 for a null transcript. It differs from
    [last_final] and from [last_partial], which are strings, so in either
    branch the widget is made editable and the trailing line deleted; then
    [transcript + " "] (line 186) or [insert("end", None)] (line 195)
    raises, and lines 187-201 are not reached. *)
Definition insert_raises (w : World) : World :=
  set_text_box
    {| tb_state := Normal;
       tb_content := delete_trailing_line (tb_content (text_box w)) |} w.

(** How the [while True] of lines 171-201 stands when the script ends or
    an exception leaves it. *)
Inductive LoopEnd :=
| AwaitingMessage (st : TranscriptState)
| ConnectionClosed
| ConnectionError.

(** The peer has closed connection [ws]. *)
Definition mark_closed (ws : Handle) (w : World) : World :=
  match sockets w !! ws with
  | Some s =>
      set_sockets
        (<[ws := mkSocket (sock_url s) (sock_header s) (sock_sent s) false]>
           (sockets w)) w
  | None => w
  end.

Fixpoint receive_loop (ws : Handle) (st : TranscriptState)
    (script : list RecvOutcome) (w : World)
  : LoopEnd * World * list Action :=
  match script with
  | [] => (AwaitingMessage st, w, [])
  | RecvClosed :: _ => (ConnectionClosed, mark_closed ws w, [])
  | RecvFailed :: _ => (ConnectionError, w, [])
  | RecvMessage result_dict now :: rest =>
      match result_dict !! "results" with
      | None => receive_loop ws st rest w
      | Some _ =>
          match first_recognition result_dict with
          | LookupRaises => (ConnectionError, w, [])
          | NullTranscript =>
              (ConnectionError, insert_raises w,
               [TextBoxConfig Normal; TextBoxDelete])
          | Recognised r =>
              let '(st1, w1, tr1) := show_recognition r now st w in
              let '(e, w2, tr2) := receive_loop ws st1 rest w1 in
              (e, w2, tr1 ++ tr2)
          end
      end
  end.

Inductive ThreadStatus :=
| Running      (* blocked in its next call, script used up *)
| Returned.

(** The whole function: the loop from the empty transcript state, then the
    handlers of lines 203-209. The handle [connect_and_transcribe]
    returns is dropped there. *)
Definition receive_transcription (ws : Handle) (script : list RecvOutcome)
    (attempts : list ConnectOutcome) (w : World)
  : World * list Action * ThreadStatus :=
  let '(e, w1, tr1) := receive_loop ws empty_transcript script w in
  let status (r : option Handle) :=
    match r with Some _ => Returned | None => Running end in
  match e with
  | AwaitingMessage _ => (w1, tr1, Running)
  | ConnectionClosed =>
      let '(w2, tr2, r) := connect_and_transcribe attempts w1 in
      (w2, tr1 ++ [PrintLine LogClosedReconnecting] ++ tr2, status r)
  | ConnectionError =>
      let '(w2, tr2, r) := connect_and_transcribe attempts w1 in
      (w2, tr1 ++ [PrintLine LogUnexpectedError; Sleep 2] ++ tr2, status r)
  end.

(** *** [listen_and_stream] and [restart_stream] (lines 212-253) *)

(** How the device calls of [restart_stream] go (lines 247-252). They run
    outside any [try]: all succeed, or one of them raises, be it for a
    fault of the device or for [RecursionError] inside the library. *)
Inductive RestartOutcome :=
| RestartOk
| StopRaises
| CloseRaises
| OpenRaises.

(** One pass through the [try] body of lines 227-228: the frame is read
    and sent, or [stream.read] raises, or the frame is read and
    [ws.send] raises; for a pass that raises, how the device calls of the
    restart that follows go. *)
Inductive CaptureOutcome :=
| FrameSent (data : AudioFrame)
| ReadFails (restart : RestartOutcome)
| SendFails (data : AudioFrame) (restart : RestartOutcome).

(** A frame has gone out on connection [ws]. *)
Definition deliver (ws : Handle) (f : Frame) (w : World) : World :=
  match sockets w !! ws with
  | Some s =>
      set_sockets
        (<[ws := mkSocket (sock_url s) (sock_header s) (sock_sent s ++ [f])
                          (sock_open s)]> (sockets w)) w
  | None => w
  end.

(** Lines 247-252 of [restart_stream]: stop, close, wait a second, open a
    new stream into the global [stream]. The flag tells whether line 253
    is reached; a call that raises has been made, and what came before it
    has taken effect. *)
Definition restart_stream (o : RestartOutcome) (w : World)
  : World * list Action * bool :=
  let w1 := set_stream StreamStopped w in
  let w2 := set_stream StreamClosed w1 in
  let w3 := set_streams_opened (S (streams_opened w2))
              (set_stream StreamActive w2) in
  match o with
  | StopRaises => (w, [StopStream], false)
  | CloseRaises => (w1, [StopStream; CloseStream], false)
  | OpenRaises =>
      (w2, [StopStream; CloseStream; Sleep 1;
            OpenStream channels rate chunk_size], false)
  | RestartOk =>
      (w3, [StopStream; CloseStream; Sleep 1;
            OpenStream channels rate chunk_size], true)
  end.

(** Whether the capture thread is still in its loop, or has ended with an
    exception nobody caught. *)
Inductive CaptureStatus :=
| Capturing
| CaptureEnded.

(** The handler of lines 229-231 and what it leads to. [frames] is the
    number of Python frames the thread may still push (the recursion limit
    less the frames in use). The call of [restart_stream] (line 231) takes
    one and the call of [listen_and_stream] in it (line 253) another, and
    neither call ever returns, so every pass that raises uses up two for
    good. A call for which no frame is left raises [RecursionError]: at
    line 231 that is inside the handler, at line 253 outside any [try], so
    either way the thread ends, as it does when a device call raises. *)
Definition after_failure (frames : nat) (o : RestartOutcome)
    (resume : nat -> World -> World * list Action * CaptureStatus) (w : World)
  : World * list Action * CaptureStatus :=
  match frames with
  | 0 => (w, [PrintLine LogAudioStreamingError], CaptureEnded)
  | S frames1 =>
      let '(w1, tr1, reached) := restart_stream o w in
      match reached, frames1 with
      | true, S frames2 =>
          let '(w2, tr2, status) := resume frames2 w1 in
          (w2, PrintLine LogAudioStreamingError :: tr1 ++ tr2, status)
      | _, _ => (w1, PrintLine LogAudioStreamingError :: tr1, CaptureEnded)
      end
  end.

(** The capture loop, entered with [frames] frames to spare.
    [restart_stream] ends by calling [listen_and_stream(ws)] again
    (line 253), with the same [ws]: that is the recursive call here. *)
Fixpoint listen_and_stream (frames : nat) (ws : Handle)
    (script : list CaptureOutcome) (w : World)
  : World * list Action * CaptureStatus :=
  match script with
  | [] => (w, [], Capturing)
  | FrameSent data :: rest =>
      let '(w1, tr, status) :=
        listen_and_stream frames ws rest (deliver ws (BinaryFrame data) w) in
      (w1, WsSend ws (BinaryFrame data) true :: tr, status)
  | ReadFails o :: rest =>
      after_failure frames o
        (fun frames' w' => listen_and_stream frames' ws rest w') w
  | SendFails data o :: rest =>
      let '(w1, tr, status) :=
        after_failure frames o
          (fun frames' w' => listen_and_stream frames' ws rest w') w in
      (w1, WsSend ws (BinaryFrame data) false :: tr, status)
  end.

(** *** [on_closing] (lines 256-269)

    The hook of the window's close button (line 272): its five calls, in
    order, each returning. *)
Definition on_closing (w : World) : World * list Action :=
  let w1 := set_stream StreamStopped w in
  let w2 := set_stream StreamClosed w1 in
  let w3 := set_audio_terminated true w2 in
  let w4 := set_root_destroyed true w3 in
  (w4, [StopStream; CloseStream; Terminate; PrintLine LogAudioStreamClosed;
        RootDestroy]).

(** *** The end of the script (line 278)

    [root.mainloop()] is the last statement: it returns once the window is
    destroyed, and then the script is over and the process ends. Every
    thread the program starts is a daemon thread (lines 143, 276), so none
    keeps the process alive: the threads end with it, and with it go the
    connections it holds. *)
Definition close_socket (s : Socket) : Socket :=
  mkSocket (sock_url s) (sock_header s) (sock_sent s) false.

Definition end_of_script (w : World) : World :=
  if root_destroyed w
  then set_exited true (set_sockets (map close_socket (sockets w)) w)
  else w.

(** The threads still running. *)
Definition live_threads (w : World) : list ThreadTarget :=
  if exited w then [] else threads w.

(** The window's close button: the hook (line 272), then what is left of
    the script. *)
Definition shutdown (w : World) : World * list Action :=
  let '(w1, tr) := on_closing w in (end_of_script w1, tr).

(** *** Start-up (lines 275-276) *)
Definition main (attempts : list ConnectOutcome) (w : World)
  : World * list Action * option Handle :=
  match connect_and_transcribe attempts w with
  | (w1, tr, Some ws) =>
      (set_threads (threads w1 ++ [CaptureThread ws]) w1,
       tr ++ [StartThread (CaptureThread ws) true], Some ws)
  | (w1, tr, None) => (w1, tr, None)
  end.

End Session.

(** ** Vocabulary for the properties *)

(** A recognition message with one result and one alternative. *)
Definition recognition_message (t : string) (f : bool) : gmap string JValue :=
  {[ "results" :=
       JResults
         [ {| alternatives := Some [ {| alt_transcript := Some (TranscriptStr t) |} ];
              final := Some (SBool f) |} ] ]}.

(** The texts of a sequence that differ from the text just before them,
    [prev] standing before the first. *)
Fixpoint changes (prev : string) (ts : list string) : list string :=
  match ts with
  | [] => []
  | t :: rest =>
      if decide (t = prev) then changes prev rest else t :: changes t rest
  end.

(** A sequence with runs of equal neighbours cut down to one element. *)
Definition distinct_consecutive (ts : list string) : list string :=
  match ts with
  | [] => []
  | t :: rest => t :: changes t rest
  end.

Definition is_commit (c : DisplayCommand) : bool :=
  match c with CommitLine _ => true | ReplaceTrailingLine _ => false end.

Definition count_commits (cs : list DisplayCommand) : nat :=
  length (List.filter is_commit cs).

(** The frames handed to [ws.send] on handle [ws], delivered or not. *)
Definition sends_on (ws : Handle) (tr : list Action) : list Frame :=
  omap (fun a => match a with
                 | WsSend h f _ => if decide (h = ws) then Some f else None
                 | _ => None
                 end) tr.

(** The [create_connection] calls of a run: url, header, handle if made. *)
Definition connections (tr : list Action)
  : list (string * list string * option Handle) :=
  omap (fun a => match a with
                 | CreateConnection u hd r => Some (u, hd, r)
                 | _ => None
                 end) tr.

(** Every frame handed to [ws.send] in a run, with the handle it was sent
    on and whether the send went through. *)
Definition sends (tr : list Action) : list (Handle * Frame * bool) :=
  omap (fun a => match a with
                 | WsSend h f ok => Some (h, f, ok)
                 | _ => None
                 end) tr.

(** The [create_connection] calls a script of attempts calls for, the next
    connection made getting the handle [next]: one call for each attempt
    up to and including the first that succeeds, each with the url and the
    Authorization header. *)
Fixpoint attempt_connections (api_key url : string) (next : Handle)
    (attempts : list ConnectOutcome)
  : list (string * list string * option Handle) :=
  match attempts with
  | [] => []
  | ConnectOk :: _ => [(url, headers api_key, Some next)]
  | ConnectRefused :: rest =>
      (url, headers api_key, None) :: attempt_connections api_key url next rest
  | HandshakeSendFails :: rest =>
      (url, headers api_key, Some next)
        :: attempt_connections api_key url (S next) rest
  end.

(** The sends a script of attempts calls for: the start message, once on
    each connection made, and nothing for an attempt that made none. *)
Fixpoint attempt_sends (next : Handle) (attempts : list ConnectOutcome)
  : list (Handle * Frame * bool) :=
  match attempts with
  | [] => []
  | ConnectOk :: _ => [(next, TextFrame init_message, true)]
  | ConnectRefused :: rest => attempt_sends next rest
  | HandshakeSendFails :: rest =>
      (next, TextFrame init_message, false) :: attempt_sends (S next) rest
  end.

(** The handles an action mentions are at least [n]. *)
Definition handles_from (n : nat) (a : Action) : Prop :=
  match a with
  | CreateConnection _ _ (Some h) => n <= h
  | WsSend h _ _ => n <= h
  | _ => True
  end.

Definition audio_state (w : World) : StreamState * nat * bool :=
  (stream w, streams_opened w, audio_terminated w).

Definition is_audio_action (a : Action) : bool :=
  match a with
  | StopStream | CloseStream | OpenStream _ _ _ | Terminate => true
  | _ => false
  end.

(** What a capture loop on [ws] may do: send on [ws], print, sleep and
    restart the microphone stream; no connection, no thread. *)
Definition capture_action (ws : Handle) (a : Action) : Prop :=
  match a with
  | WsSend h (BinaryFrame _) _ => h = ws
  | PrintLine LogAudioStreamingError | Sleep _
  | StopStream | CloseStream | OpenStream _ _ _ => True
  | _ => False
  end.

(** The capture threads a run starts. *)
Definition capture_starts (tr : list Action) : list Handle :=
  omap (fun a => match a with
                 | StartThread (CaptureThread ws) _ => Some ws
                 | _ => None
                 end) tr.

(** The session once start-up has connected at the first attempt:
    connection 0 open, its receive thread and the capture thread started. *)
Definition streaming_world : World :=
  (main "secret" "wss://stt.example/v1/recognize" [ConnectOk]
     (initial_world 0%Z)).1.1.

(** The two threads during a reconnection. The capture thread is not
    held up while the receive thread reconnects. In this schedule [recv]
    raises the closed-connection exception on [ws] (line 203), the capture
    thread, entered on [ws] with [frames] frames to spare, makes the passes
    of [capture], and the receive thread then makes its attempts
    (line 205). *)
Definition reconnect_transition (api_key url : string) (frames : nat)
    (ws : Handle) (capture : list CaptureOutcome)
    (attempts : list ConnectOutcome) (w : World) : World * list Action :=
  let '(w1, tr1, _) :=
    listen_and_stream frames ws capture (mark_closed ws w) in
  let '(w2, tr2, _) := connect_and_transcribe api_key url attempts w1 in
  (w2, PrintLine LogClosedReconnecting :: tr1 ++ tr2).

(** ** Start-up configuration (lines 55-60) *)

Inductive ConfigError :=
| ApiKeyNotSet
| UrlNotSet.

(** [os.getenv] gives [None] or a string; [if not x] holds for [None] and
    for the empty string. The key is looked at first. *)
Definition load_config (API_KEY URL : option string)
  : ConfigError + (string * string) :=
  match API_KEY with
  | None => inl ApiKeyNotSet
  | Some k =>
      if str_ne k "" then
        match URL with
        | None => inl UrlNotSet
        | Some u => if str_ne u "" then inr (k, u) else inl UrlNotSet
        end
      else inl ApiKeyNotSet
  end.

(** ** Vocabulary for the further properties *)

(** The recognitions a receive loop reads from its script before the first
    exception; messages without "results" give none. *)
Fixpoint read_recognitions (script : list RecvOutcome) : list Recognition :=
  match script with
  | RecvMessage d _ :: rest =>
      match d !! "results" with
      | None => read_recognitions rest
      | Some _ =>
          match first_recognition d with
          | Recognised r => r :: read_recognitions rest
          | _ => []
          end
      end
  | _ => []
  end.

(** Whether the receive loop ends on a null transcript, that is, with the
    [insert] of line 186 or 195 raising. *)
Fixpoint insert_raised (script : list RecvOutcome) : bool :=
  match script with
  | RecvMessage d _ :: rest =>
      match d !! "results" with
      | None => insert_raised rest
      | Some _ =>
          match first_recognition d with
          | Recognised _ => insert_raised rest
          | NullTranscript => true
          | LookupRaises => false
          end
      end
  | _ => false
  end.

(** A recognition message whose transcript is null. *)
Definition null_transcript_message (f : bool) : gmap string JValue :=
  {[ "results" :=
       JResults
         [ {| alternatives := Some [ {| alt_transcript := Some TranscriptNull |} ];
              final := Some (SBool f) |} ] ]}.

Fixpoint has_newline (s : string) : bool :=
  match s with
  | EmptyString => false
  | String c rest => Ascii.eqb c newline || has_newline rest
  end.

(** The connections [connect_and_transcribe] makes on a script of attempts,
    as it leaves them: one per attempt that got as far as a connection, up
    to and including the first success. *)
Fixpoint sockets_made (api_key url : string) (attempts : list ConnectOutcome)
  : list Socket :=
  match attempts with
  | [] => []
  | ConnectOk :: _ => [new_socket api_key url [TextFrame init_message]]
  | ConnectRefused :: rest => sockets_made api_key url rest
  | HandshakeSendFails :: rest =>
      new_socket api_key url [] :: sockets_made api_key url rest
  end.

(** The attempts that fail before the first success. *)
Fixpoint failed_before (attempts : list ConnectOutcome) : nat :=
  match attempts with
  | [] => 0
  | ConnectOk :: _ => 0
  | _ :: rest => S (failed_before rest)
  end.

Definition is_ok (o : ConnectOutcome) : bool :=
  match o with ConnectOk => true | _ => false end.

(** The waits of a run, in seconds. *)
Definition sleeps (tr : list Action) : list nat :=
  omap (fun a => match a with Sleep n => Some n | _ => None end) tr.

(** The receive threads a run starts. *)
Definition receive_starts (tr : list Action) : list Handle :=
  omap (fun a => match a with
                 | StartThread (ReceiveThread ws) _ => Some ws
                 | _ => None
                 end) tr.

(** The frames of a capture script whose send succeeded. *)
Fixpoint sent_frames (script : list CaptureOutcome) : list AudioFrame :=
  match script with
  | [] => []
  | FrameSent data :: rest => data :: sent_frames rest
  | _ :: rest => sent_frames rest
  end.

(** The device calls of every restart in a capture script succeed. *)
Definition restarts_succeed (script : list CaptureOutcome) : Prop :=
  Forall (fun p => match p with
                   | FrameSent _ => True
                   | ReadFails o | SendFails _ o => o = RestartOk
                   end) script.

(** The passes of a capture script the thread makes when entered with
    [frames] frames to spare: all of them, or those up to and including
    the pass on which it ends. *)
Fixpoint passes_made (frames : nat) (script : list CaptureOutcome) : nat :=
  match script with
  | [] => 0
  | FrameSent _ :: rest => S (passes_made frames rest)
  | ReadFails o :: rest | SendFails _ o :: rest =>
      match frames, o with
      | S (S frames2), RestartOk => S (passes_made frames2 rest)
      | _, _ => 1
      end
  end.

(** The passes of a capture script that raised. *)
Fixpoint capture_failures (script : list CaptureOutcome) : nat :=
  match script with
  | [] => 0
  | FrameSent _ :: rest => capture_failures rest
  | _ :: rest => S (capture_failures rest)
  end.

(** The streams a run opens. *)
Definition stream_opens (tr : list Action) : nat :=
  length (List.filter
            (fun a => match a with OpenStream _ _ _ => true | _ => false end)
            tr).

(** The texts of the final results among a sequence of recognitions. *)
Definition finals (rs : list Recognition) : list string :=
  map transcript (List.filter is_final rs).

(** The commits among a sequence of display commands. *)
Definition commits (cs : list DisplayCommand) : list DisplayCommand :=
  List.filter is_commit cs.

(** Reading base64 text back, to state what [b64encode] keeps. *)
Module Base64Read.

Fixpoint index_from (n : N) (c : ascii) (l : list ascii) : option N :=
  match l with
  | [] => None
  | x :: rest => if Ascii.eqb x c then Some n else index_from (N.succ n) c rest
  end.

Definition sextet_index (c : ascii) : option N :=
  index_from 0 c Base64.alphabet.

Fixpoint decode_chars (cs : list ascii) : option (list N) :=
  match cs with
  | [] => Some []
  | c1 :: c2 :: c3 :: c4 :: rest =>
      match sextet_index c1, sextet_index c2 with
      | Some n1, Some n2 =>
          let a := (n1 * 4 + n2 / 16)%N in
          if Ascii.eqb c3 Base64.pad then
            match rest with
            | [] => if Ascii.eqb c4 Base64.pad then Some [a] else None
            | _ => None
            end
          else
            match sextet_index c3 with
            | Some n3 =>
                let b := ((n2 mod 16) * 16 + n3 / 4)%N in
                if Ascii.eqb c4 Base64.pad then
                  match rest with
                  | [] => Some [a; b]
                  | _ => None
                  end
                else
                  match sextet_index c4, decode_chars rest with
                  | Some n4, Some tail =>
                      Some (a :: b :: ((n3 mod 4) * 64 + n4)%N :: tail)
                  | _, _ => None
                  end
            | None => None
            end
      | _, _ => None
      end
  | _ => None
  end.

Definition b64decode (s : string) : option string :=
  match decode_chars (String.list_ascii_of_string s) with
  | Some bs => Some (String.string_of_list_ascii (map ascii_of_N bs))
  | None => None
  end.

End Base64Read.

(** ** The definitions on small inputs *)

Example reconcile_all_example :
  reconcile_all [PartialText "hel"; PartialText "hello"; FinalText "hello there"]
    empty_transcript
  = ({| last_partial := ""; last_final := "hello there" |},
     [ReplaceTrailingLine "hel"; ReplaceTrailingLine "hello";
      CommitLine "hello there "]).
Proof. reflexivity. Qed.

Example b64encode_apikey : Base64.b64encode "apikey:" = "YXBpa2V5Og==".
Proof. reflexivity. Qed.
Example b64encode_man : Base64.b64encode "Man" = "TWFu".
Proof. reflexivity. Qed.
Example b64encode_light_work : Base64.b64encode "light work" = "bGlnaHQgd29yaw==".
Proof. reflexivity. Qed.
Example b64encode_light_wo : Base64.b64encode "light wo" = "bGlnaHQgd28=".
Proof. reflexivity. Qed.

(** The text on screen after the three messages of the scenario: each
    command replaced the line before it. *)
Example text_box_after_scenario :
  text_box
    (receive_loop 0 empty_transcript
       [RecvMessage (recognition_message "hel" false) 1%Z;
        RecvMessage (recognition_message "hello" false) 2%Z;
        RecvMessage (recognition_message "hello there" true) 3%Z]
       (initial_world 0%Z)).1.2
  = {| tb_state := Disabled; tb_content := "hello there " |}.
Proof.
  unfold recognition_message. simpl.
  rewrite !lookup_singleton_eq. unfold first_recognition.
  rewrite !lookup_singleton_eq. reflexivity.
Qed.

Example delete_trailing_line_example :
  delete_trailing_line ("one" +:+ String newline "two") = "one" /\
  delete_trailing_line "one" = "".
Proof. split; reflexivity. Qed.

(** Closes the cases in which the receive loop stops at a message. *)
Ltac loop_stops :=
  first [ done
        | by repeat split
        | split; [done | by repeat constructor] ].

(** ** Properties of the reconciler *)

Lemma str_ne_false (a b : string) : str_ne a b = false <-> a = b.
Proof.
  unfold str_ne. rewrite negb_false_iff. apply String.eqb_eq.
Qed.

Lemma str_ne_true (a b : string) : str_ne a b = true <-> a <> b.
Proof.
  unfold str_ne. rewrite negb_true_iff. apply String.eqb_neq.
Qed.

Lemma str_ne_refl (a : string) : str_ne a a = false.
Proof. by apply str_ne_false. Qed.

Lemma reconcile_partial_same (st : TranscriptState) :
  reconcile (PartialText (last_partial st)) st = (st, None).
Proof. unfold reconcile. simpl. by rewrite str_ne_refl. Qed.

Lemma reconcile_partial_new (t : string) (st : TranscriptState) :
  t <> last_partial st ->
  reconcile (PartialText t) st
  = ({| last_partial := t; last_final := last_final st |},
     Some (ReplaceTrailingLine t)).
Proof.
  intros Hne. apply str_ne_true in Hne. unfold reconcile. simpl.
  by rewrite Hne.
Qed.

Lemma reconcile_final_same (st : TranscriptState) :
  reconcile (FinalText (last_final st)) st = (st, None).
Proof. unfold reconcile. simpl. by rewrite str_ne_refl. Qed.

Lemma reconcile_final_new (t : string) (st : TranscriptState) :
  t <> last_final st ->
  reconcile (FinalText t) st
  = ({| last_partial := ""; last_final := t |},
     Some (CommitLine (t +:+ " "))).
Proof.
  intros Hne. apply str_ne_true in Hne. unfold reconcile. simpl.
  by rewrite Hne.
Qed.

(** The loop body hands the widget exactly what [reconcile] gives. *)
Lemma show_recognition_reconcile (r : Recognition) (now : Timestamp)
    (st : TranscriptState) (w : World) :
  (show_recognition r now st w).1.1 = (reconcile r st).1 /\
  displayed (show_recognition r now st w).2 = option_list (reconcile r st).2.
Proof.
  unfold show_recognition.
  destruct (reconcile r st) as [st1 [[s|s]|]]; simpl; done.
Qed.

(** Interim results never touch [last_final]. *)
Lemma partials_keep_last_final (ps : list string) (st : TranscriptState) :
  last_final (reconcile_all (map PartialText ps) st).1 = last_final st.
Proof.
  revert st. induction ps as [|p ps IH]; intros st; [done|].
  simpl. destruct (reconcile (PartialText p) st) as [st1 out] eqn:Hr.
  specialize (IH st1).
  destruct (reconcile_all (map PartialText ps) st1) as [st2 outs]. simpl in *.
  rewrite IH. unfold reconcile in Hr. simpl in Hr.
  destruct (str_ne p (last_partial st)); by inversion Hr.
Qed.

Lemma partials_emit_changes (ps : list string) (st : TranscriptState) :
  (reconcile_all (map PartialText ps) st).2
  = map ReplaceTrailingLine (changes (last_partial st) ps).
Proof.
  revert st. induction ps as [|p ps IH]; intros st; [done|].
  simpl. case_decide as Heq.
  - subst p. rewrite reconcile_partial_same.
    specialize (IH st).
    destruct (reconcile_all (map PartialText ps) st) as [st2 outs].
    simpl in *. done.
  - rewrite (reconcile_partial_new p st Heq).
    specialize (IH {| last_partial := p; last_final := last_final st |}).
    destruct (reconcile_all (map PartialText ps) _) as [st2 outs].
    simpl in *. by rewrite IH.
Qed.

(** C1: on an interim text equal to [last_partial] the reconciler emits
    nothing and keeps its state, otherwise it stores the text in
    [last_partial] and emits [ReplaceTrailingLine] of it; on a final text
    equal to [last_final] it emits nothing and keeps its state, otherwise it
    stores the text in [last_final], empties [last_partial] and emits
    [CommitLine] of the text followed by a space. The receive loop's body
    ends in the reconciler's state and displays exactly what it emits. *)
Theorem C1_reconcile_cases :
  forall (t : string) (st : TranscriptState),
    (t = last_partial st -> reconcile (PartialText t) st = (st, None)) /\
    (t <> last_partial st ->
       reconcile (PartialText t) st
       = ({| last_partial := t; last_final := last_final st |},
          Some (ReplaceTrailingLine t))) /\
    (t = last_final st -> reconcile (FinalText t) st = (st, None)) /\
    (t <> last_final st ->
       reconcile (FinalText t) st
       = ({| last_partial := ""; last_final := t |},
          Some (CommitLine (t +:+ " ")))) /\
    (forall (f : bool) (now : Timestamp) (w : World),
       let r := {| transcript := t; is_final := f |} in
       (show_recognition r now st w).1.1 = (reconcile r st).1 /\
       displayed (show_recognition r now st w).2
       = option_list (reconcile r st).2).
Proof.
  intros t st. repeat split.
  - intros ->. apply reconcile_partial_same.
  - apply reconcile_partial_new.
  - intros ->. apply reconcile_final_same.
  - apply reconcile_final_new.
  - apply show_recognition_reconcile.
  - apply show_recognition_reconcile.
Qed.

(** C2: from the empty transcript state, the interim texts "hel" and
    "hello" followed by the final text "hello there" give the display
    commands ReplaceTrailingLine "hel", ReplaceTrailingLine "hello",
    CommitLine "hello there " in that order, both from the reconciler and
    from the receive loop run on the three messages. *)
Theorem C2_scenario :
  (reconcile_all
     [PartialText "hel"; PartialText "hello"; FinalText "hello there"]
     empty_transcript).2
  = [ReplaceTrailingLine "hel"; ReplaceTrailingLine "hello";
     CommitLine "hello there "]
  /\
  forall (ws : Handle) (t1 t2 t3 : Timestamp) (w : World),
    displayed
      (receive_loop ws empty_transcript
         [RecvMessage (recognition_message "hel" false) t1;
          RecvMessage (recognition_message "hello" false) t2;
          RecvMessage (recognition_message "hello there" true) t3] w).2
    = [ReplaceTrailingLine "hel"; ReplaceTrailingLine "hello";
       CommitLine "hello there "].
Proof.
  split; [reflexivity|]. intros ws t1 t2 t3 w.
  unfold recognition_message. simpl.
  rewrite !lookup_singleton_eq. unfold first_recognition.
  rewrite !lookup_singleton_eq. reflexivity.
Qed.

(** C3, as stated, fails: after the interim text "hel" and the final text
    "hello", [last_partial] is empty, so the interim text "" that follows
    equals it and nothing is emitted for it. *)
Lemma C3_counterexample :
  let st1 := (reconcile_all (map PartialText ["hel"]) empty_transcript).1 in
  let st2 := (reconcile (FinalText "hello") st1).1 in
  "hello" <> last_final st1 /\
  last_partial st2 = "" /\
  (reconcile (PartialText "") st2).2 = None /\
  (reconcile (PartialText "") st2).2 <> Some (ReplaceTrailingLine "").
Proof. repeat split; done. Qed.

(** C3 (amended): after any sequence of interim texts, a final text [t]
    different from the current [last_final] makes the reconciler emit
    exactly [CommitLine (t + " ")] and leaves [last_partial] empty; an
    interim text [p] delivered next, if not empty, is emitted as
    [ReplaceTrailingLine p], and an empty interim text delivered next
    equals the cleared [last_partial] and is suppressed, state unchanged. *)
Theorem C3_final_after_partials :
  forall (ps : list string) (st : TranscriptState) (t p : string),
    t <> last_final (reconcile_all (map PartialText ps) st).1 ->
    p <> "" ->
    exists st2 : TranscriptState,
      reconcile (FinalText t) (reconcile_all (map PartialText ps) st).1
      = (st2, Some (CommitLine (t +:+ " "))) /\
      last_partial st2 = "" /\
      last_final st2 = t /\
      reconcile (PartialText p) st2
      = ({| last_partial := p; last_final := t |},
         Some (ReplaceTrailingLine p)) /\
      reconcile (PartialText "") st2 = (st2, None).
Proof.
  intros ps st t p Ht Hp.
  exists {| last_partial := ""; last_final := t |}.
  split; [by apply reconcile_final_new|].
  split; [done|]. split; [done|]. split.
  - by apply (reconcile_partial_new p
                {| last_partial := ""; last_final := t |}).
  - apply (reconcile_partial_same {| last_partial := ""; last_final := t |}).
Qed.

Lemma C3_final_after_partials_witness :
  "hello there" <>
    last_final (reconcile_all (map PartialText ["hel"; "hello"])
                  empty_transcript).1 /\
  "general" <> "" /\
  exists st2 : TranscriptState,
    reconcile (FinalText "hello there")
      (reconcile_all (map PartialText ["hel"; "hello"]) empty_transcript).1
    = (st2, Some (CommitLine ("hello there" +:+ " "))) /\
    last_partial st2 = "" /\
    last_final st2 = "hello there" /\
    reconcile (PartialText "general") st2
    = ({| last_partial := "general"; last_final := "hello there" |},
       Some (ReplaceTrailingLine "general")) /\
    reconcile (PartialText "") st2 = (st2, None).
Proof.
  split; [discriminate|]. split; [discriminate|].
  apply (C3_final_after_partials ["hel"; "hello"] empty_transcript
           "hello there" "general"); discriminate.
Defined.

(** C4, as stated, fails: in the state reached by the final text "hello",
    delivering that same final text twice emits no [CommitLine] at all, not
    one; and from the empty state the interim sequence [""] has one
    distinct value yet nothing is emitted for it. *)
Lemma C4_counterexample :
  let st := (reconcile (FinalText "hello") empty_transcript).1 in
  count_commits
    (reconcile_all [FinalText "hello"; FinalText "hello"] st).2 = 0 /\
  count_commits
    (reconcile_all [FinalText "hello"; FinalText "hello"] st).2 <> 1 /\
  (reconcile_all (map PartialText [""]) empty_transcript).2 = [] /\
  (reconcile_all (map PartialText [""]) empty_transcript).2
  <> map ReplaceTrailingLine (distinct_consecutive [""]).
Proof. repeat split; done. Qed.

(** C4 (amended): in every state the second of two deliveries of one final
    text emits nothing and leaves the state as the first left it, so the
    pair emits [CommitLine] once when the text differs from the state's
    [last_final] and not at all when it equals it; a sequence of interim
    texts emits one [ReplaceTrailingLine] for each text that differs from
    the one before it (for the first, from the state's [last_partial]) and
    nothing for a text that repeats it. *)
Theorem C4_duplicate_suppression :
  forall (st : TranscriptState) (t : string) (ps : list string),
    reconcile (FinalText t) (reconcile (FinalText t) st).1
    = ((reconcile (FinalText t) st).1, None) /\
    count_commits (reconcile_all [FinalText t; FinalText t] st).2
    = (if decide (t = last_final st) then 0 else 1) /\
    (reconcile_all (map PartialText ps) st).2
    = map ReplaceTrailingLine (changes (last_partial st) ps).
Proof.
  intros st t ps. split; [|split].
  - destruct (decide (t = last_final st)) as [->|Hne].
    + by rewrite !reconcile_final_same.
    + rewrite (reconcile_final_new t st Hne). simpl.
      apply (reconcile_final_same {| last_partial := ""; last_final := t |}).
  - simpl. case_decide as Heq.
    + subst t. by rewrite !reconcile_final_same.
    + rewrite (reconcile_final_new t st Heq).
      pose proof (reconcile_final_same
                    {| last_partial := ""; last_final := t |}) as Hsame.
      simpl in Hsame. by rewrite Hsame.
  - apply partials_emit_changes.
Qed.

(** C10: a message without a "results" key is passed over: the loop goes on
    with the next message from the same transcript state and the same
    world, and on its own such a message leaves the loop awaiting the next
    one with nothing displayed and nothing changed. *)
Theorem C10_message_without_results :
  forall (ws : Handle) (st : TranscriptState) (d : gmap string JValue)
         (now : Timestamp) (rest : list RecvOutcome) (w : World),
    d !! "results" = None ->
    receive_loop ws st (RecvMessage d now :: rest) w
    = receive_loop ws st rest w /\
    receive_loop ws st [RecvMessage d now] w = (AwaitingMessage st, w, []).
Proof.
  intros ws st d now rest w Hd. simpl. by rewrite Hd.
Qed.

Lemma C10_message_without_results_witness :
  ({[ "state" := JStr "listening" ]} : gmap string JValue) !! "results" = None /\
  receive_loop 0 empty_transcript
    [RecvMessage {[ "state" := JStr "listening" ]} 7%Z;
     RecvMessage (recognition_message "hel" false) 8%Z] (initial_world 0%Z)
  = receive_loop 0 empty_transcript
      [RecvMessage (recognition_message "hel" false) 8%Z] (initial_world 0%Z) /\
  receive_loop 0 empty_transcript
    [RecvMessage {[ "state" := JStr "listening" ]} 7%Z] (initial_world 0%Z)
  = (AwaitingMessage empty_transcript, initial_world 0%Z, []).
Proof.
  split; [by apply lookup_singleton_ne|].
  apply (C10_message_without_results 0 empty_transcript
           {[ "state" := JStr "listening" ]} 7%Z
           [RecvMessage (recognition_message "hel" false) 8%Z] (initial_world 0%Z)).
  by apply lookup_singleton_ne.
Defined.

(** ** Properties of the connection set-up *)

Lemma try_connect_sockets (api_key url : string) (o : ConnectOutcome)
    (w : World) :
  length (sockets w) <= length (sockets (try_connect api_key url o w).1.1).
Proof.
  destruct o; simpl; rewrite ?length_app; simpl; lia.
Qed.

Lemma try_connect_handles (api_key url : string) (o : ConnectOutcome)
    (w : World) :
  Forall (handles_from (length (sockets w))) (try_connect api_key url o w).1.2.
Proof.
  destruct o; simpl; repeat constructor.
Qed.

Lemma handles_from_mono (n m : nat) (tr : list Action) :
  n <= m -> Forall (handles_from m) tr -> Forall (handles_from n) tr.
Proof.
  intros Hnm Hall. eapply Forall_impl; [exact Hall|].
  intros [u hd [h|]|h f b| | | | | | | | | | | |]; simpl; lia.
Qed.

Lemma connect_handles (api_key url : string) (attempts : list ConnectOutcome)
    (w : World) :
  Forall (handles_from (length (sockets w)))
    (connect_and_transcribe api_key url attempts w).1.2.
Proof.
  revert w. induction attempts as [|o rest IH]; intros w; simpl; [constructor|].
  pose proof (try_connect_handles api_key url o w) as Ht.
  pose proof (try_connect_sockets api_key url o w) as Hs.
  destruct (try_connect api_key url o w) as [[w1 tr1] [ws|]]; simpl in *;
    [done|].
  specialize (IH w1).
  destruct (connect_and_transcribe api_key url rest w1) as [[w2 tr2] r].
  simpl in *. rewrite Forall_app. split; [done|].
  constructor; [exact I|]. constructor; [exact I|].
  by apply (handles_from_mono _ (length (sockets w1))).
Qed.

Lemma sends_on_app (ws : Handle) (tr1 tr2 : list Action) :
  sends_on ws (tr1 ++ tr2) = sends_on ws tr1 ++ sends_on ws tr2.
Proof. unfold sends_on. apply omap_app. Qed.

Lemma connections_app (tr1 tr2 : list Action) :
  connections (tr1 ++ tr2) = connections tr1 ++ connections tr2.
Proof. unfold connections. apply omap_app. Qed.

Lemma sends_on_below (n ws : Handle) (tr : list Action) :
  ws < n -> Forall (handles_from n) tr -> sends_on ws tr = [].
Proof.
  intros Hlt. induction 1 as [|a tr Ha _ IH]; [done|].
  change (a :: tr) with ([a] ++ tr). rewrite sends_on_app, IH.
  destruct a as [? ? ?|h f b| | | | | | | | | | | |]; try done.
  unfold sends_on. simpl in *. case_decide; [lia|done].
Qed.

Lemma connections_from (n : nat) (tr : list Action) (u : string)
    (hd : list string) (ws : Handle) :
  Forall (handles_from n) tr -> (u, hd, Some ws) ∈ connections tr -> n <= ws.
Proof.
  induction 1 as [|a tr Ha _ IH]; [by intros ?%elem_of_nil|].
  change (a :: tr) with ([a] ++ tr). rewrite connections_app.
  intros [Hin|Hin]%elem_of_app; [|by apply IH].
  destruct a as [u' hd' [h|]|h f b| | | | | | | | | | | |];
    try (by apply elem_of_nil in Hin).
  - apply list_elem_of_singleton in Hin. inversion Hin; subst. exact Ha.
  - apply list_elem_of_singleton in Hin. inversion Hin.
Qed.

Lemma connect_header (api_key url : string) (attempts : list ConnectOutcome)
    (w : World) (u : string) (hd : list string) (r : option Handle) :
  (u, hd, r) ∈ connections (connect_and_transcribe api_key url attempts w).1.2 ->
  u = url /\ hd = headers api_key.
Proof.
  revert w. induction attempts as [|o rest IH]; intros w; simpl;
    [by intros ?%elem_of_nil|].
  destruct o; simpl.
  - intros Hin. apply list_elem_of_singleton in Hin. by inversion Hin.
  - specialize (IH w).
    destruct (connect_and_transcribe api_key url rest w) as [[w2 tr2] r2].
    simpl in *. intros [Heq|Hin]%elem_of_cons; [by inversion Heq|by apply IH].
  - specialize (IH (set_sockets (sockets w ++ [new_socket api_key url []]) w)).
    destruct (connect_and_transcribe api_key url rest _) as [[w2 tr2] r2].
    simpl in *. intros [Heq|Hin]%elem_of_cons; [by inversion Heq|by apply IH].
Qed.

Lemma connect_one_start_message (api_key url : string)
    (attempts : list ConnectOutcome) (w : World) (u : string)
    (hd : list string) (ws : Handle) :
  (u, hd, Some ws)
    ∈ connections (connect_and_transcribe api_key url attempts w).1.2 ->
  sends_on ws (connect_and_transcribe api_key url attempts w).1.2
  = [TextFrame init_message].
Proof.
  revert w. induction attempts as [|o rest IH]; intros w; simpl;
    [by intros ?%elem_of_nil|].
  destruct o; simpl.
  - intros Hin. apply list_elem_of_singleton in Hin. inversion Hin; subst.
    unfold sends_on. simpl. by rewrite decide_True.
  - specialize (IH w).
    destruct (connect_and_transcribe api_key url rest w) as [[w2 tr2] r2].
    simpl in *. intros [Heq|Hin]%elem_of_cons; [by inversion Heq|].
    by apply IH.
  - set (w1 := set_sockets (sockets w ++ [new_socket api_key url []]) w).
    specialize (IH w1).
    pose proof (connect_handles api_key url rest w1) as Hfrom.
    destruct (connect_and_transcribe api_key url rest w1) as [[w2 tr2] r2].
    simpl in *. rewrite length_app in Hfrom. simpl in Hfrom.
    intros [Heq|Hin]%elem_of_cons.
    + inversion Heq; subst.
      change (sends_on (length (sockets w))
                ([CreateConnection url (headers api_key)
                    (Some (length (sockets w)));
                  WsSend (length (sockets w)) (TextFrame init_message) false;
                  PrintLine LogFailedToConnect; Sleep 2] ++ tr2)
              = [TextFrame init_message]).
      rewrite sends_on_app.
      rewrite (sends_on_below (length (sockets w) + 1) _ tr2); [|lia|done].
      unfold sends_on. simpl. by rewrite decide_True.
    + pose proof (connections_from _ _ _ _ _ Hfrom Hin) as Hge.
      change (sends_on ws
                ([CreateConnection url (headers api_key)
                    (Some (length (sockets w)));
                  WsSend (length (sockets w)) (TextFrame init_message) false;
                  PrintLine LogFailedToConnect; Sleep 2] ++ tr2)
              = [TextFrame init_message]).
      rewrite sends_on_app, (IH Hin).
      unfold sends_on. simpl. rewrite decide_False; [done|lia].
Qed.

Lemma sends_app (tr1 tr2 : list Action) :
  sends (tr1 ++ tr2) = sends tr1 ++ sends tr2.
Proof. unfold sends. apply omap_app. Qed.

Lemma connect_calls (api_key url : string) (attempts : list ConnectOutcome)
    (w : World) :
  connections (connect_and_transcribe api_key url attempts w).1.2
  = attempt_connections api_key url (length (sockets w)) attempts /\
  sends (connect_and_transcribe api_key url attempts w).1.2
  = attempt_sends (length (sockets w)) attempts.
Proof.
  revert w. induction attempts as [|o rest IH]; intros w; [done|].
  destruct o; cbn [connect_and_transcribe try_connect attempt_connections
                   attempt_sends].
  - done.
  - specialize (IH w).
    destruct (connect_and_transcribe api_key url rest w) as [[w2 tr2] r2].
    cbn [fst snd] in *. destruct IH as [IH1 IH2].
    rewrite !connections_app, !sends_app, IH1, IH2. done.
  - specialize (IH (set_sockets (sockets w ++ [new_socket api_key url []]) w)).
    destruct (connect_and_transcribe api_key url rest _) as [[w2 tr2] r2].
    cbn [fst snd] in *. destruct IH as [IH1 IH2].
    rewrite !connections_app, !sends_app, IH1, IH2.
    cbn. rewrite length_app. cbn. by rewrite Nat.add_1_r.
Qed.

Lemma connect_succeeds (api_key url : string) (attempts : list ConnectOutcome)
    (w : World) :
  In ConnectOk attempts ->
  exists ws : Handle,
    (connect_and_transcribe api_key url attempts w).2 = Some ws.
Proof.
  revert w. induction attempts as [|o rest IH]; intros w; [done|].
  intros [->|Hin].
  - cbn. by exists (length (sockets w)).
  - destruct o; cbn.
    + by exists (length (sockets w)).
    + destruct (IH w Hin) as [ws Hws]. exists ws.
      by destruct (connect_and_transcribe api_key url rest w) as [[w2 tr2] r].
    + destruct (IH (set_sockets
                      (sockets w ++ [new_socket api_key url []]) w) Hin)
        as [ws Hws]. exists ws.
      by destruct (connect_and_transcribe api_key url rest _) as [[w2 tr2] r].
Qed.

(** C8: on every attempt [connect_and_transcribe] calls [create_connection]
    exactly once, with the url and the header "Authorization: Basic "
    followed by the base64 text of "apikey:" and the key; on every attempt
    that makes a connection it sends exactly one message, on that
    connection, the start message, whose fields are action "start", the
    content type of raw 16 kHz mono PCM, interim_results true, timestamps
    false and inactivity_timeout -1, and it sends nothing else (an attempt
    whose [create_connection] raises has no connection to send on). A run
    with a successful attempt returns a handle, and a handle it returns is
    that of an open connection on which that message was delivered. *)
Theorem C8_handshake :
  forall (api_key url : string) (attempts : list ConnectOutcome) (w : World),
    (forall o : ConnectOutcome,
       connections (try_connect api_key url o w).1.2
       = [(url,
           ["Authorization: Basic "
              +:+ Base64.b64encode ("apikey:" +:+ api_key)],
           match o with
           | ConnectRefused => None
           | _ => Some (length (sockets w))
           end)] /\
       sends (try_connect api_key url o w).1.2
       = match o with
         | ConnectRefused => []
         | HandshakeSendFails =>
             [(length (sockets w), TextFrame init_message, false)]
         | ConnectOk => [(length (sockets w), TextFrame init_message, true)]
         end) /\
    connections (connect_and_transcribe api_key url attempts w).1.2
    = attempt_connections api_key url (length (sockets w)) attempts /\
    sends (connect_and_transcribe api_key url attempts w).1.2
    = attempt_sends (length (sockets w)) attempts /\
    (In ConnectOk attempts ->
     exists ws : Handle,
       (connect_and_transcribe api_key url attempts w).2 = Some ws) /\
    (forall (u : string) (hd : list string) (r : option Handle),
       (u, hd, r)
         ∈ connections (connect_and_transcribe api_key url attempts w).1.2 ->
       u = url /\
       hd = ["Authorization: Basic "
               +:+ Base64.b64encode ("apikey:" +:+ api_key)]) /\
    (forall (u : string) (hd : list string) (ws : Handle),
       (u, hd, Some ws)
         ∈ connections (connect_and_transcribe api_key url attempts w).1.2 ->
       sends_on ws (connect_and_transcribe api_key url attempts w).1.2
       = [TextFrame init_message]) /\
    (forall ws : Handle,
       (connect_and_transcribe api_key url attempts w).2 = Some ws ->
       sockets (connect_and_transcribe api_key url attempts w).1.1 !! ws
       = Some {| sock_url := url;
                 sock_header := headers api_key;
                 sock_sent := [TextFrame init_message];
                 sock_open := true |}) /\
    (list_to_map init_message : gmap string JValue)
    = {[ "action" := JStr "start";
         "content-type" := JStr "audio/l16; rate=16000; channels=1";
         "interim_results" := JBool true;
         "timestamps" := JBool false;
         "inactivity_timeout" := JNum (-1) ]}.
Proof.
  intros api_key url attempts w.
  split; [by intros []|].
  split; [apply connect_calls|]. split; [apply connect_calls|].
  split; [apply connect_succeeds|].
  split; [|split; [|split]].
  - intros u hd r Hin. by apply (connect_header _ _ _ _ _ _ _ Hin).
  - apply connect_one_start_message.
  - revert w. induction attempts as [|o rest IH]; intros w ws; simpl; [done|].
    destruct o; simpl.
    + intros Heq. inversion Heq; subst.
      by rewrite lookup_app_r, Nat.sub_diag.
    + specialize (IH w ws).
      by destruct (connect_and_transcribe api_key url rest w) as [[w2 tr2] r2].
    + specialize (IH (set_sockets (sockets w ++ [new_socket api_key url []]) w)
                     ws).
      by destruct (connect_and_transcribe api_key url rest _) as [[w2 tr2] r2].
  - reflexivity.
Qed.

(** ** The microphone is outside the receive side's reach *)

Lemma connect_audio (api_key url : string) (attempts : list ConnectOutcome)
    (w : World) :
  audio_state (connect_and_transcribe api_key url attempts w).1.1
  = audio_state w /\
  Forall (fun a => is_audio_action a = false)
    (connect_and_transcribe api_key url attempts w).1.2.
Proof.
  revert w. induction attempts as [|o rest IH]; intros w; simpl; [done|].
  destruct o; simpl.
  - split; [done|]. by repeat constructor.
  - specialize (IH w).
    destruct (connect_and_transcribe api_key url rest w) as [[w2 tr2] r2].
    simpl in *. destruct IH as [IH1 IH2]. split; [done|].
    by repeat (constructor; [done|]).
  - specialize (IH (set_sockets (sockets w ++ [new_socket api_key url []]) w)).
    destruct (connect_and_transcribe api_key url rest _) as [[w2 tr2] r2].
    simpl in *. destruct IH as [IH1 IH2]. split; [done|].
    by repeat (constructor; [done|]).
Qed.

Lemma show_recognition_audio (r : Recognition) (now : Timestamp)
    (st : TranscriptState) (w : World) :
  audio_state (show_recognition r now st w).1.2 = audio_state w /\
  Forall (fun a => is_audio_action a = false) (show_recognition r now st w).2.
Proof.
  unfold show_recognition.
  destruct (reconcile r st) as [st1 [[s|s]|]]; simpl;
    (split; [done|]); by repeat constructor.
Qed.

Lemma mark_closed_audio (ws : Handle) (w : World) :
  audio_state (mark_closed ws w) = audio_state w.
Proof. unfold mark_closed. by destruct (sockets w !! ws). Qed.

Lemma receive_loop_audio (ws : Handle) (st : TranscriptState)
    (script : list RecvOutcome) (w : World) :
  audio_state (receive_loop ws st script w).1.2 = audio_state w /\
  Forall (fun a => is_audio_action a = false) (receive_loop ws st script w).2.
Proof.
  revert st w. induction script as [|o rest IH]; intros st w; simpl; [done|].
  destruct o as [d now| |]; simpl;
    [|by rewrite mark_closed_audio|done].
  destruct (d !! "results"); [|by apply IH].
  destruct (first_recognition d) as [| |r]; [loop_stops|loop_stops|].
  pose proof (show_recognition_audio r now st w) as [Hs1 Hs2].
  destruct (show_recognition r now st w) as [[st1 w1] tr1].
  specialize (IH st1 w1).
  destruct (receive_loop ws st1 rest w1) as [[e w2] tr2].
  simpl in *. destruct IH as [IH1 IH2]. split; [congruence|].
  by apply Forall_app.
Qed.

(** ** The capture loop *)

Lemma deliver_other (ws h : Handle) (f : Frame) (w : World) :
  ws <> h -> sockets (deliver ws f w) !! h = sockets w !! h.
Proof.
  intros Hne. unfold deliver.
  destruct (sockets w !! ws) as [s|]; [|done].
  simpl. by apply list_lookup_insert_ne.
Qed.

Lemma deliver_frame (ws : Handle) (f : Frame) (w : World) :
  text_box (deliver ws f w) = text_box w /\
  last_update_time (deliver ws f w) = last_update_time w /\
  threads (deliver ws f w) = threads w /\
  audio_terminated (deliver ws f w) = audio_terminated w /\
  root_destroyed (deliver ws f w) = root_destroyed w /\
  map sock_open (sockets (deliver ws f w)) = map sock_open (sockets w) /\
  stream (deliver ws f w) = stream w /\
  streams_opened (deliver ws f w) = streams_opened w.
Proof.
  unfold deliver. destruct (sockets w !! ws) as [s|] eqn:Hs; [|done].
  repeat split. simpl. rewrite list_fmap_insert. simpl.
  apply list_insert_id. rewrite list_lookup_fmap.
  unfold Handle in *. by rewrite Hs.
Qed.

(** Splits a pass that raised into its cases: no frame left, one frame
    left, a device call raising, and the restart after which the loop is
    entered again (left as the only goal, with the frames left named). *)
Ltac failure_cases frames o f :=
  unfold after_failure;
  destruct frames as [|[|f]]; [done | by destruct o | ];
  destruct o; [ | done ..].

Lemma listen_other_socket (frames : nat) (ws h : Handle)
    (script : list CaptureOutcome) (w : World) :
  ws <> h ->
  sockets (listen_and_stream frames ws script w).1.1 !! h = sockets w !! h.
Proof.
  intros Hne. revert frames w.
  induction script as [|p rest IH]; intros frames w; [done|].
  destruct p as [data|o|data o]; cbn [listen_and_stream].
  - specialize (IH frames (deliver ws (BinaryFrame data) w)).
    destruct (listen_and_stream frames ws rest _) as [[w1 tr] status].
    cbn [fst snd] in *. by rewrite IH, deliver_other.
  - failure_cases frames o f. cbn.
    specialize (IH f (restart_stream RestartOk w).1.1). cbn in IH.
    by destruct (listen_and_stream f ws rest _) as [[w1 tr] status].
  - assert (sockets
              (after_failure frames o
                 (fun frames' w' => listen_and_stream frames' ws rest w') w).1.1
            !! h = sockets w !! h) as Hgoal.
    { failure_cases frames o f. cbn.
      specialize (IH f (restart_stream RestartOk w).1.1). cbn in IH.
      by destruct (listen_and_stream f ws rest _) as [[w1 tr] status]. }
    by destruct (after_failure frames o _ w) as [[w1 tr] status].
Qed.

Lemma listen_actions (frames : nat) (ws : Handle)
    (script : list CaptureOutcome) (w : World) :
  Forall (capture_action ws) (listen_and_stream frames ws script w).1.2.
Proof.
  revert frames w.
  induction script as [|p rest IH]; intros frames w; [by constructor|].
  assert (forall o,
            Forall (capture_action ws)
              (after_failure frames o
                 (fun frames' w' => listen_and_stream frames' ws rest w')
                 w).1.2) as Hfail.
  { intros o. unfold after_failure.
    destruct frames as [|[|f]];
      [by repeat constructor | destruct o; by repeat constructor |].
    destruct o; [|by repeat constructor..]. cbn.
    specialize (IH f (restart_stream RestartOk w).1.1). cbn in IH.
    destruct (listen_and_stream f ws rest _) as [[w1 tr] status].
    cbn [fst snd] in *. by repeat (constructor; [done|]). }
  destruct p as [data|o|data o]; cbn [listen_and_stream].
  - specialize (IH frames (deliver ws (BinaryFrame data) w)).
    destruct (listen_and_stream frames ws rest _) as [[w1 tr] status].
    cbn [fst snd] in *. by constructor.
  - apply Hfail.
  - specialize (Hfail o).
    destruct (after_failure frames o _ w) as [[w1 tr] status].
    cbn [fst snd] in *. by constructor.
Qed.

Lemma listen_sockets_length (frames : nat) (ws : Handle)
    (script : list CaptureOutcome) (w : World) :
  length (sockets (listen_and_stream frames ws script w).1.1)
  = length (sockets w).
Proof.
  revert frames w.
  induction script as [|p rest IH]; intros frames w; [done|].
  assert (forall o,
            length
              (sockets
                 (after_failure frames o
                    (fun frames' w' => listen_and_stream frames' ws rest w')
                    w).1.1) = length (sockets w)) as Hfail.
  { intros o. failure_cases frames o f. cbn.
    specialize (IH f (restart_stream RestartOk w).1.1). cbn in IH.
    by destruct (listen_and_stream f ws rest _) as [[w1 tr] status]. }
  destruct p as [data|o|data o]; cbn [listen_and_stream].
  - specialize (IH frames (deliver ws (BinaryFrame data) w)).
    destruct (listen_and_stream frames ws rest _) as [[w1 tr] status].
    cbn [fst snd] in *. rewrite IH. unfold deliver.
    destruct (sockets w !! ws); [|done]. simpl. by rewrite length_insert.
  - apply Hfail.
  - specialize (Hfail o).
    by destruct (after_failure frames o _ w) as [[w1 tr] status].
Qed.




(** ** Reconnection and shutdown *)

Lemma capture_starts_app (tr1 tr2 : list Action) :
  capture_starts (tr1 ++ tr2) = capture_starts tr1 ++ capture_starts tr2.
Proof. unfold capture_starts. apply omap_app. Qed.

Lemma connect_starts_no_capture (api_key url : string)
    (attempts : list ConnectOutcome) (w : World) :
  capture_starts (connect_and_transcribe api_key url attempts w).1.2 = [].
Proof.
  revert w. induction attempts as [|o rest IH]; intros w; simpl; [done|].
  destruct o; simpl; [done| |].
  - specialize (IH w).
    by destruct (connect_and_transcribe api_key url rest w) as [[w2 tr2] r2].
  - specialize (IH (set_sockets (sockets w ++ [new_socket api_key url []]) w)).
    by destruct (connect_and_transcribe api_key url rest _) as [[w2 tr2] r2].
Qed.

Lemma show_recognition_starts_no_capture (r : Recognition) (now : Timestamp)
    (st : TranscriptState) (w : World) :
  capture_starts (show_recognition r now st w).2 = [].
Proof.
  unfold show_recognition. by destruct (reconcile r st) as [st1 [[s|s]|]].
Qed.

Lemma receive_loop_starts_no_capture (ws : Handle) (st : TranscriptState)
    (script : list RecvOutcome) (w : World) :
  capture_starts (receive_loop ws st script w).2 = [].
Proof.
  revert st w. induction script as [|o rest IH]; intros st w; simpl; [done|].
  destruct o as [d now| |]; simpl; [|done|done].
  destruct (d !! "results"); [|by apply IH].
  destruct (first_recognition d) as [| |r]; [loop_stops|loop_stops|].
  pose proof (show_recognition_starts_no_capture r now st w) as Hs.
  destruct (show_recognition r now st w) as [[st1 w1] tr1].
  specialize (IH st1 w1).
  destruct (receive_loop ws st1 rest w1) as [[e w2] tr2].
  simpl in Hs, IH. cbn [fst snd]. by rewrite capture_starts_app, Hs, IH.
Qed.

Lemma receive_starts_no_capture (api_key url : string) (ws : Handle)
    (script : list RecvOutcome) (attempts : list ConnectOutcome) (w : World) :
  capture_starts (receive_transcription api_key url ws script attempts w).1.2
  = [].
Proof.
  unfold receive_transcription.
  pose proof (receive_loop_starts_no_capture ws empty_transcript script w)
    as H1.
  destruct (receive_loop ws empty_transcript script w) as [[e w1] tr1].
  simpl in H1. destruct e as [st| |]; simpl; [done| |].
  - pose proof (connect_starts_no_capture api_key url attempts w1) as H2.
    destruct (connect_and_transcribe api_key url attempts w1) as [[w2 tr2] r].
    simpl in H2. cbn [fst snd]. rewrite capture_starts_app, H1. exact H2.
  - pose proof (connect_starts_no_capture api_key url attempts w1) as H2.
    destruct (connect_and_transcribe api_key url attempts w1) as [[w2 tr2] r].
    simpl in H2. cbn [fst snd]. rewrite capture_starts_app, H1. exact H2.
Qed.

Lemma main_starts_capture (api_key url : string)
    (attempts : list ConnectOutcome) (w : World) (ws : Handle) :
  (main api_key url attempts w).2 = Some ws ->
  capture_starts (main api_key url attempts w).1.2 = [ws].
Proof.
  unfold main.
  pose proof (connect_starts_no_capture api_key url attempts w) as Hc.
  destruct (connect_and_transcribe api_key url attempts w) as [[w1 tr] [h|]];
    simpl in Hc; cbn [fst snd]; [|done].
  intros Heq. inversion Heq; subst.
  by rewrite capture_starts_app, Hc.
Qed.

(** C6: the connection of a streaming session is reported closed and the
    next attempt succeeds. The receive side then makes connection 1 and
    starts a receive thread on it, and that is all: no capture thread is
    started, the capture thread of start-up still holds handle 0, and
    however long it runs no audio frame is ever put on connection 1, which
    only ever carries the start message. No run of the receive side starts
    a capture thread; start-up does, on the handle it was returned. *)
Theorem C6_reconnect_leaves_capture_on_old_handle :
  let url := "wss://stt.example/v1/recognize" in
  let r := receive_transcription "secret" url 0 [RecvClosed] [ConnectOk]
             streaming_world in
  threads streaming_world = [ReceiveThread 0; CaptureThread 0] /\
  r.1.2 = [PrintLine LogClosedReconnecting;
           CreateConnection url (headers "secret") (Some 1);
           WsSend 1 (TextFrame init_message) true;
           PrintLine LogConnected;
           StartThread (ReceiveThread 1) true] /\
  r.2 = Returned /\
  threads r.1.1 = [ReceiveThread 0; CaptureThread 0; ReceiveThread 1] /\
  sock_open <$> sockets r.1.1 !! 0 = Some false /\
  sock_open <$> sockets r.1.1 !! 1 = Some true /\
  (forall (frames : nat) (script : list CaptureOutcome),
     sock_sent <$> sockets (listen_and_stream frames 0 script r.1.1).1.1 !! 1
     = Some [TextFrame init_message]) /\
  (forall frames : nat,
     (listen_and_stream (4 + frames) 0
        [SendFails [1%N] RestartOk; SendFails [2%N] RestartOk] r.1.1).1.2
     = [WsSend 0 (BinaryFrame [1%N]) false; PrintLine LogAudioStreamingError;
        StopStream; CloseStream; Sleep 1; OpenStream 1 16000 512;
        WsSend 0 (BinaryFrame [2%N]) false; PrintLine LogAudioStreamingError;
        StopStream; CloseStream; Sleep 1; OpenStream 1 16000 512]) /\
  (forall (api_key url' : string) (ws : Handle) (script : list RecvOutcome)
          (attempts : list ConnectOutcome) (w : World),
     capture_starts
       (receive_transcription api_key url' ws script attempts w).1.2 = []) /\
  capture_starts
    (main "secret" url [ConnectOk] (initial_world 0%Z)).1.2 = [0].
Proof.
  repeat split.
  - intros frames script. rewrite listen_other_socket; done.
  - apply receive_starts_no_capture.
Qed.

Lemma filter_none {A : Type} (f : A -> bool) (l : list A) :
  Forall (fun a => f a = false) l -> List.filter f l = [].
Proof.
  induction 1 as [|a l Ha _ IH]; [done|]. cbn. by rewrite Ha.
Qed.

Lemma listen_quiet_audio (frames : nat) (ws : Handle)
    (capture : list CaptureOutcome) (w : World) :
  capture_failures capture = 0 ->
  audio_state (listen_and_stream frames ws capture w).1.1 = audio_state w /\
  Forall (fun a => is_audio_action a = false)
    (listen_and_stream frames ws capture w).1.2.
Proof.
  revert w. induction capture as [|p rest IH]; intros w Hq; [done|].
  destruct p as [data|o|data o]; [|done|done].
  cbn [listen_and_stream]. cbn in Hq.
  specialize (IH (deliver ws (BinaryFrame data) w) Hq).
  pose proof (deliver_frame ws (BinaryFrame data) w)
    as (_ & _ & _ & Hd1 & _ & _ & Hd2 & Hd3).
  destruct (listen_and_stream frames ws rest _) as [[w1 tr] status].
  cbn [fst snd] in *. destruct IH as [IH1 IH2]. split.
  - rewrite IH1. unfold audio_state. by rewrite Hd1, Hd2, Hd3.
  - by constructor.
Qed.

Lemma listen_streams_opened (frames : nat) (ws : Handle)
    (script : list CaptureOutcome) (w : World) :
  streams_opened w
  <= streams_opened (listen_and_stream frames ws script w).1.1.
Proof.
  revert frames w.
  induction script as [|p rest IH]; intros frames w; [done|].
  assert (forall o,
            streams_opened w
            <= streams_opened
                 (after_failure frames o
                    (fun frames' w' => listen_and_stream frames' ws rest w')
                    w).1.1) as Hfail.
  { intros o. unfold after_failure.
    destruct frames as [|[|f]]; [done | by destruct o; cbn; lia |].
    destruct o; [|cbn; lia..]. cbn.
    specialize (IH f (restart_stream RestartOk w).1.1). cbn in IH.
    destruct (listen_and_stream f ws rest _) as [[w1 tr] status].
    cbn [fst snd] in *. lia. }
  destruct p as [data|o|data o]; cbn [listen_and_stream].
  - specialize (IH frames (deliver ws (BinaryFrame data) w)).
    pose proof (deliver_frame ws (BinaryFrame data) w)
      as (_ & _ & _ & _ & _ & _ & _ & Hd).
    destruct (listen_and_stream frames ws rest _) as [[w1 tr] status].
    cbn [fst snd] in *. by rewrite Hd in IH.
  - apply Hfail.
  - specialize (Hfail o).
    by destruct (after_failure frames o _ w) as [[w1 tr] status].
Qed.




(** ** Further properties of the receive loop *)

Lemma displayed_app (tr1 tr2 : list Action) :
  displayed (tr1 ++ tr2) = displayed tr1 ++ displayed tr2.
Proof. unfold displayed. apply omap_app. Qed.

Lemma reconcile_all_cons (r : Recognition) (rs : list Recognition)
    (st : TranscriptState) :
  reconcile_all (r :: rs) st
  = ((reconcile_all rs (reconcile r st).1).1,
     option_list (reconcile r st).2 ++ (reconcile_all rs (reconcile r st).1).2).
Proof.
  simpl. destruct (reconcile r st) as [st1 out]. simpl.
  by destruct (reconcile_all rs st1) as [st2 outs].
Qed.

(** X1: the receive loop displays exactly what the reconciler emits for the
    recognitions it reads before the first exception, in order, and while
    it awaits the next message its transcript state is the reconciler's. *)
Theorem receive_loop_reconciles :
  forall (ws : Handle) (st : TranscriptState) (script : list RecvOutcome)
         (w : World),
    displayed (receive_loop ws st script w).2
    = (reconcile_all (read_recognitions script) st).2 /\
    (forall st' : TranscriptState,
       (receive_loop ws st script w).1.1 = AwaitingMessage st' ->
       st' = (reconcile_all (read_recognitions script) st).1).
Proof.
  intros ws st script. revert st.
  induction script as [|o rest IH]; intros st w.
  - simpl. split; [done|]. by intros st' [= <-].
  - destruct o as [d now| |]; [|by split|by split].
    cbn [receive_loop read_recognitions].
    destruct (d !! "results"); [|by apply IH].
    destruct (first_recognition d) as [| |r]; [loop_stops|loop_stops|].
    pose proof (show_recognition_reconcile r now st w) as [Hst Hout].
    destruct (show_recognition r now st w) as [[st1 w1] tr1].
    specialize (IH st1 w1).
    destruct (receive_loop ws st1 rest w1) as [[e w2] tr2].
    cbn [fst snd] in *. rewrite reconcile_all_cons. cbn [fst snd].
    rewrite <- Hst, <- Hout, displayed_app.
    destruct IH as [IH1 IH2]. split; [by rewrite IH1|exact IH2].
Qed.

(** X2: the loop over two scripts in a row: the second is read only if the
    first left the loop awaiting a message, and then from the state and
    world the first left; after an exception nothing more is read. *)
Theorem receive_loop_app :
  forall (ws : Handle) (st : TranscriptState) (s1 s2 : list RecvOutcome)
         (w : World),
    receive_loop ws st (s1 ++ s2) w
    = match receive_loop ws st s1 w with
      | (AwaitingMessage st1, w1, tr1) =>
          ((receive_loop ws st1 s2 w1).1, tr1 ++ (receive_loop ws st1 s2 w1).2)
      | stopped => stopped
      end.
Proof.
  intros ws st s1 s2. revert st.
  induction s1 as [|o rest IH]; intros st w.
  - simpl. by destruct (receive_loop ws st s2 w) as [[e w2] tr2].
  - destruct o as [d now| |]; [|done|done].
    cbn [app receive_loop].
    destruct (d !! "results"); [|by apply IH].
    destruct (first_recognition d) as [| |r]; [loop_stops|loop_stops|].
    destruct (show_recognition r now st w) as [[st1 w1] tr1].
    rewrite IH.
    destruct (receive_loop ws st1 rest w1) as [[[st2| |] w2] tr2]; try done.
    destruct (receive_loop ws st2 s2 w2) as [[e w3] tr3].
    cbn [fst snd]. by rewrite app_assoc.
Qed.

Lemma connect_displays_nothing (api_key url : string)
    (attempts : list ConnectOutcome) (w : World) :
  displayed (connect_and_transcribe api_key url attempts w).1.2 = [].
Proof.
  revert w. induction attempts as [|o rest IH]; intros w; simpl; [done|].
  destruct o; simpl; [done| |].
  - specialize (IH w).
    by destruct (connect_and_transcribe api_key url rest w) as [[w2 tr2] r2].
  - specialize (IH (set_sockets (sockets w ++ [new_socket api_key url []]) w)).
    by destruct (connect_and_transcribe api_key url rest _) as [[w2 tr2] r2].
Qed.

(** X3: what a receive thread displays depends on its own messages alone:
    it is what the reconciler emits for them from the empty transcript
    state, whatever the world, the handle, or the course of the
    reconnection; the state of an earlier thread is not carried over. *)
Theorem receive_transcription_displays :
  forall (api_key url : string) (ws : Handle) (script : list RecvOutcome)
         (attempts : list ConnectOutcome) (w : World),
    displayed (receive_transcription api_key url ws script attempts w).1.2
    = (reconcile_all (read_recognitions script) empty_transcript).2.
Proof.
  intros api_key url ws script attempts w. unfold receive_transcription.
  pose proof (receive_loop_reconciles ws empty_transcript script w) as [H _].
  destruct (receive_loop ws empty_transcript script w) as [[e w1] tr1].
  cbn [fst snd] in H. destruct e as [st| |]; [done| |].
  - pose proof (connect_displays_nothing api_key url attempts w1) as Hc.
    destruct (connect_and_transcribe api_key url attempts w1) as [[w2 tr2] r].
    cbn [fst snd] in *. rewrite !displayed_app, H, Hc.
    by rewrite app_nil_r.
  - pose proof (connect_displays_nothing api_key url attempts w1) as Hc.
    destruct (connect_and_transcribe api_key url attempts w1) as [[w2 tr2] r].
    cbn [fst snd] in *. rewrite !displayed_app, H, Hc.
    by rewrite app_nil_r.
Qed.

(** X4: a message that has a "results" key whose value is not a list, or is
    an empty list, or whose first result has no alternative (the list
    absent or empty), or whose first alternative has no transcript key, or
    whose first result has no final key, raises in the loop before anything
    is shown: the thread prints the unexpected-error line, waits two
    seconds and reconnects, the world untouched until then and the messages
    after it never read. *)
Theorem malformed_results_reconnect :
  forall (api_key url : string) (ws : Handle) (d : gmap string JValue)
         (v : JValue) (now : Timestamp) (rest : list RecvOutcome)
         (attempts : list ConnectOutcome) (w : World),
    d !! "results" = Some v ->
    match v with
    | JResults (r :: _) =>
        match alternatives r with
        | Some (a :: _) => alt_transcript a = None \/ final r = None
        | _ => True
        end
    | _ => True
    end ->
    (receive_transcription api_key url ws (RecvMessage d now :: rest)
       attempts w).1
    = ((connect_and_transcribe api_key url attempts w).1.1,
       [PrintLine LogUnexpectedError; Sleep 2]
         ++ (connect_and_transcribe api_key url attempts w).1.2).
Proof.
  intros api_key url ws d v now rest attempts w Hd Hv.
  assert (first_recognition d = LookupRaises) as Hnone.
  { unfold first_recognition. rewrite Hd.
    destruct v as [s|b|n|[|r rs]]; try done.
    destruct (alternatives r) as [[|a alts]|]; try done.
    destruct Hv as [-> | ->]; [done|].
    by destruct (alt_transcript a) as [[|t]|]. }
  unfold receive_transcription. cbn [receive_loop]. rewrite Hd, Hnone.
  by destruct (connect_and_transcribe api_key url attempts w) as [[w2 tr2] r].
Qed.

Lemma malformed_results_reconnect_witness :
  ({[ "results" := JResults [] ]} : gmap string JValue) !! "results"
  = Some (JResults []) /\
  True /\
  (receive_transcription "secret" "wss://stt.example/v1/recognize" 0
     [RecvMessage {[ "results" := JResults [] ]} 5%Z;
      RecvMessage (recognition_message "hel" false) 6%Z]
     [ConnectOk] streaming_world).1
  = ((connect_and_transcribe "secret" "wss://stt.example/v1/recognize"
        [ConnectOk] streaming_world).1.1,
     [PrintLine LogUnexpectedError; Sleep 2]
       ++ (connect_and_transcribe "secret" "wss://stt.example/v1/recognize"
             [ConnectOk] streaming_world).1.2).
Proof.
  split; [by apply lookup_singleton_eq|]. split; [exact I|].
  apply (malformed_results_reconnect "secret"
           "wss://stt.example/v1/recognize" 0
           {[ "results" := JResults [] ]} (JResults []) 5%Z
           [RecvMessage (recognition_message "hel" false) 6%Z]
           [ConnectOk] streaming_world).
  - by apply lookup_singleton_eq.
  - exact I.
Defined.

(** ** The text widget under the receive loop *)

Lemma no_newline_nothing_to_keep (s : string) :
  has_newline s = false -> delete_trailing_line s = "".
Proof.
  unfold delete_trailing_line. intros Hs.
  assert (drop_last_line s = None) as ->; [|done].
  induction s as [|c rest IH]; [done|].
  simpl in *. apply orb_false_iff in Hs as [Hc Hrest].
  by rewrite (IH Hrest), Hc.
Qed.

Lemma has_newline_app (a b : string) :
  has_newline (a +:+ b) = has_newline a || has_newline b.
Proof.
  induction a as [|c rest IH]; [done|].
  simpl. by rewrite IH, orb_assoc.
Qed.

Lemma show_recognition_text (r : Recognition) (now : Timestamp)
    (st : TranscriptState) (w : World) :
  has_newline (tb_content (text_box w)) = false ->
  has_newline (transcript r) = false ->
  tb_content (text_box (show_recognition r now st w).1.2)
  = match last (displayed (show_recognition r now st w).2) with
    | Some c => display_text c
    | None => tb_content (text_box w)
    end /\
  has_newline (tb_content (text_box (show_recognition r now st w).1.2)) = false.
Proof.
  intros Hw Hr. unfold show_recognition, reconcile.
  pose proof (no_newline_nothing_to_keep _ Hw) as Hd.
  unfold delete_trailing_line in Hd.
  destruct (is_final r);
    [destruct (str_ne (transcript r) (last_final st))
    |destruct (str_ne (transcript r) (last_partial st))];
    cbn; rewrite ?Hd; cbn; rewrite ?has_newline_app, ?Hr; done.
Qed.



(** ** Further properties of the connection set-up *)

Lemma sleeps_app (tr1 tr2 : list Action) :
  sleeps (tr1 ++ tr2) = sleeps tr1 ++ sleeps tr2.
Proof. unfold sleeps. apply omap_app. Qed.

Lemma receive_starts_app (tr1 tr2 : list Action) :
  receive_starts (tr1 ++ tr2) = receive_starts tr1 ++ receive_starts tr2.
Proof. unfold receive_starts. apply omap_app. Qed.

(** X6: [connect_and_transcribe] returns only with a connection: it is still
    retrying at the end of a script exactly when no attempt of the script
    succeeds, and what follows the first success is never tried. *)
Theorem connect_returns_on_first_success :
  forall (api_key url : string) (attempts : list ConnectOutcome) (w : World),
    ((connect_and_transcribe api_key url attempts w).2 = None
     <-> Forall (fun o => o <> ConnectOk) attempts) /\
    (forall (failed later : list ConnectOutcome),
       attempts = failed ++ ConnectOk :: later ->
       connect_and_transcribe api_key url attempts w
       = connect_and_transcribe api_key url (failed ++ [ConnectOk]) w).
Proof.
  intros api_key url attempts w. split.
  - revert w. induction attempts as [|o rest IH]; intros w; simpl.
    + split; [constructor|done].
    + destruct o; simpl.
      * split; [done|]. intros Hall. by apply Forall_cons in Hall as [? _].
      * specialize (IH w).
        destruct (connect_and_transcribe api_key url rest w) as [[w2 tr2] r].
        simpl in *. rewrite IH. split.
        -- intros Hall. by constructor.
        -- intros Hall. by apply Forall_cons in Hall as [_ ?].
      * specialize (IH (set_sockets
                          (sockets w ++ [new_socket api_key url []]) w)).
        destruct (connect_and_transcribe api_key url rest _) as [[w2 tr2] r].
        simpl in *. rewrite IH. split.
        -- intros Hall. by constructor.
        -- intros Hall. by apply Forall_cons in Hall as [_ ?].
  - intros failed later ->. revert w.
    induction failed as [|o rest IH]; intros w; [done|].
    cbn [app connect_and_transcribe].
    destruct (try_connect api_key url o w) as [[w1 tr1] [h|]]; [done|].
    by rewrite IH.
Qed.

(** X7: each failed attempt is followed by one wait of two seconds and there
    is no other wait, so the waits number the attempts that fail before the
    first success; and [create_connection] is called once per attempt
    made. *)
Theorem connect_waits_two_seconds :
  forall (api_key url : string) (attempts : list ConnectOutcome) (w : World),
    sleeps (connect_and_transcribe api_key url attempts w).1.2
    = replicate (failed_before attempts) 2 /\
    length (connections (connect_and_transcribe api_key url attempts w).1.2)
    = failed_before attempts
      + match (connect_and_transcribe api_key url attempts w).2 with
        | Some _ => 1
        | None => 0
        end.
Proof.
  intros api_key url attempts. induction attempts as [|o rest IH]; intros w;
    simpl; [done|].
  destruct o; simpl; [done| |].
  - specialize (IH w).
    destruct (connect_and_transcribe api_key url rest w) as [[w2 tr2] r].
    simpl in *. destruct IH as [IH1 IH2]. split; [by rewrite <- IH1|].
    unfold connections in *. simpl. by rewrite IH2.
  - specialize (IH (set_sockets (sockets w ++ [new_socket api_key url []]) w)).
    destruct (connect_and_transcribe api_key url rest _) as [[w2 tr2] r].
    simpl in *. destruct IH as [IH1 IH2]. split; [by rewrite <- IH1|].
    unfold connections in *. simpl. by rewrite IH2.
Qed.

(** X8: [connect_and_transcribe] only ever adds connections: the sockets
    afterwards are the sockets before, unchanged, followed by one socket
    for every attempt that got as far as a connection. A connection whose
    start message could not be sent stays in the list, open and with
    nothing sent on it: it is not closed before the next attempt. *)
Theorem connect_appends_sockets :
  forall (api_key url : string) (attempts : list ConnectOutcome) (w : World),
    sockets (connect_and_transcribe api_key url attempts w).1.1
    = sockets w ++ sockets_made api_key url attempts.
Proof.
  intros api_key url attempts. induction attempts as [|o rest IH]; intros w;
    simpl; [by rewrite app_nil_r|].
  destruct o; simpl; [done| |].
  - specialize (IH w).
    by destruct (connect_and_transcribe api_key url rest w) as [[w2 tr2] r].
  - specialize (IH (set_sockets (sockets w ++ [new_socket api_key url []]) w)).
    destruct (connect_and_transcribe api_key url rest _) as [[w2 tr2] r].
    simpl in *. by rewrite IH, <- app_assoc.
Qed.

(** X9: a run of [connect_and_transcribe] that returns has started exactly
    one thread, a receive thread on the handle it returns, which is the
    last socket made; a run still retrying has started none. *)
Theorem connect_starts_one_receive_thread :
  forall (api_key url : string) (attempts : list ConnectOutcome) (w : World),
    match (connect_and_transcribe api_key url attempts w).2 with
    | Some ws =>
        S ws = length (sockets (connect_and_transcribe api_key url attempts w).1.1)
        /\ length (sockets w) <= ws
        /\ threads (connect_and_transcribe api_key url attempts w).1.1
           = threads w ++ [ReceiveThread ws]
        /\ receive_starts (connect_and_transcribe api_key url attempts w).1.2
           = [ws]
    | None =>
        threads (connect_and_transcribe api_key url attempts w).1.1 = threads w
        /\ receive_starts (connect_and_transcribe api_key url attempts w).1.2
           = []
    end.
Proof.
  intros api_key url attempts. induction attempts as [|o rest IH]; intros w;
    simpl; [done|].
  destruct o; simpl.
  - rewrite length_app. simpl. repeat split; lia.
  - specialize (IH w).
    by destruct (connect_and_transcribe api_key url rest w) as [[w2 tr2] [h|]].
  - specialize (IH (set_sockets (sockets w ++ [new_socket api_key url []]) w)).
    destruct (connect_and_transcribe api_key url rest _) as [[w2 tr2] [h|]];
      simpl in *; [|done].
    rewrite length_app in IH. simpl in IH.
    destruct IH as (? & ? & ? & ?). repeat split; [done|lia|done|done].
Qed.

(** ** What a receive thread leaves behind *)

Lemma show_recognition_frame (r : Recognition) (now : Timestamp)
    (st : TranscriptState) (w : World) :
  sockets (show_recognition r now st w).1.2 = sockets w /\
  threads (show_recognition r now st w).1.2 = threads w /\
  tb_state (text_box (show_recognition r now st w).1.2) = Disabled.
Proof.
  unfold show_recognition. by destruct (reconcile r st) as [st1 [[s|s]|]].
Qed.

Lemma receive_loop_frame (ws : Handle) (st : TranscriptState)
    (script : list RecvOutcome) (w : World) :
  sockets (receive_loop ws st script w).1.2
  = match (receive_loop ws st script w).1.1 with
    | ConnectionClosed => sockets (mark_closed ws w)
    | _ => sockets w
    end /\
  threads (receive_loop ws st script w).1.2 = threads w /\
  tb_state (text_box (receive_loop ws st script w).1.2)
  = if insert_raised script then Normal
    else match read_recognitions script with
         | [] => tb_state (text_box w)
         | _ => Disabled
         end.
Proof.
  revert st w. induction script as [|o rest IH]; intros st w; [done| ].
  destruct o as [d now| |]; [| |done].
  - cbn [receive_loop read_recognitions insert_raised].
    destruct (d !! "results"); [|by apply IH].
    destruct (first_recognition d) as [| |r]; [done|done|].
    pose proof (show_recognition_frame r now st w) as (Hs & Ht & Hb).
    destruct (show_recognition r now st w) as [[st1 w1] tr1].
    specialize (IH st1 w1).
    destruct (receive_loop ws st1 rest w1) as [[e w2] tr2].
    cbn [fst snd] in *. destruct IH as (IH1 & IH2 & IH3).
    split; [|split].
    + rewrite IH1. destruct e; try done. unfold mark_closed.
      rewrite Hs. by destruct (sockets w !! ws).
    + by rewrite IH2.
    + rewrite IH3, Hb. destruct (insert_raised rest); [done|].
      by destruct (read_recognitions rest).
  - cbn. unfold mark_closed. by destruct (sockets w !! ws).
Qed.

Lemma connect_keeps_text_box (api_key url : string)
    (attempts : list ConnectOutcome) (w : World) :
  text_box (connect_and_transcribe api_key url attempts w).1.1 = text_box w.
Proof.
  revert w. induction attempts as [|o rest IH]; intros w; simpl; [done|].
  destruct o; simpl; [done| |].
  - specialize (IH w).
    by destruct (connect_and_transcribe api_key url rest w) as [[w2 tr2] r2].
  - specialize (IH (set_sockets (sockets w ++ [new_socket api_key url []]) w)).
    by destruct (connect_and_transcribe api_key url rest _) as [[w2 tr2] r2].
Qed.

(** X10: no connection is ever removed or closed by a receive thread. When
    its loop ends because the peer closed the connection, the sockets are
    those before, its own marked closed, followed by the ones the
    reconnection makes; when it ends on any other exception the old
    connection is left exactly as it was, still open if it was, beside the
    new ones; while the loop awaits a message nothing changes. *)
Theorem receive_thread_sockets :
  forall (api_key url : string) (ws : Handle) (script : list RecvOutcome)
         (attempts : list ConnectOutcome) (w : World),
    sockets (receive_transcription api_key url ws script attempts w).1.1
    = match (receive_loop ws empty_transcript script w).1.1 with
      | AwaitingMessage _ => sockets w
      | ConnectionClosed =>
          sockets (mark_closed ws w) ++ sockets_made api_key url attempts
      | ConnectionError => sockets w ++ sockets_made api_key url attempts
      end.
Proof.
  intros api_key url ws script attempts w. unfold receive_transcription.
  pose proof (receive_loop_frame ws empty_transcript script w) as (Hs & _ & _).
  destruct (receive_loop ws empty_transcript script w) as [[e w1] tr1].
  cbn [fst snd] in *. destruct e as [st| |]; [done| |].
  - pose proof (connect_appends_sockets api_key url attempts w1) as Hc.
    destruct (connect_and_transcribe api_key url attempts w1) as [[w2 tr2] r].
    cbn [fst snd] in *. by rewrite Hc, Hs.
  - pose proof (connect_appends_sockets api_key url attempts w1) as Hc.
    destruct (connect_and_transcribe api_key url attempts w1) as [[w2 tr2] r].
    cbn [fst snd] in *. by rewrite Hc, Hs.
Qed.

Lemma receive_loop_starts_no_receive (ws : Handle) (st : TranscriptState)
    (script : list RecvOutcome) (w : World) :
  receive_starts (receive_loop ws st script w).2 = [].
Proof.
  revert st w. induction script as [|o rest IH]; intros st w; [done|].
  destruct o as [d now| |]; [|done|done].
  cbn [receive_loop]. destruct (d !! "results"); [|by apply IH].
  destruct (first_recognition d) as [| |r]; [loop_stops|loop_stops|].
  assert (receive_starts (show_recognition r now st w).2 = []) as Hshow.
  { unfold show_recognition. by destruct (reconcile r st) as [st1 [[s|s]|]]. }
  destruct (show_recognition r now st w) as [[st1 w1] tr1].
  specialize (IH st1 w1).
  destruct (receive_loop ws st1 rest w1) as [[e w2] tr2].
  cbn [fst snd] in *. by rewrite receive_starts_app, Hshow, IH.
Qed.

(** X11: a receive thread starts at most one thread, and only once it has
    left its own loop: when it returns it has started exactly one receive
    thread, on a connection newer than every socket it found; while it is
    still running (awaiting a message, or retrying the connection) it has
    started none. *)
Theorem receive_thread_successor :
  forall (api_key url : string) (ws : Handle) (script : list RecvOutcome)
         (attempts : list ConnectOutcome) (w : World),
    match (receive_transcription api_key url ws script attempts w).2 with
    | Returned =>
        exists ws' : Handle,
          length (sockets w) <= ws' /\
          threads (receive_transcription api_key url ws script attempts w).1.1
          = threads w ++ [ReceiveThread ws'] /\
          receive_starts
            (receive_transcription api_key url ws script attempts w).1.2
          = [ws'] /\
          forall st : TranscriptState,
            (receive_loop ws empty_transcript script w).1.1
            <> AwaitingMessage st
    | Running =>
        threads (receive_transcription api_key url ws script attempts w).1.1
        = threads w /\
        receive_starts
          (receive_transcription api_key url ws script attempts w).1.2 = []
    end.
Proof.
  intros api_key url ws script attempts w. unfold receive_transcription.
  pose proof (receive_loop_frame ws empty_transcript script w) as (Hs & Ht & _).
  pose proof (receive_loop_starts_no_receive ws empty_transcript script w)
    as Hr.
  destruct (receive_loop ws empty_transcript script w) as [[e w1] tr1].
  cbn [fst snd] in *. destruct e as [st| |]; [done| |].
  - pose proof (connect_starts_one_receive_thread api_key url attempts w1)
      as Hc.
    destruct (connect_and_transcribe api_key url attempts w1)
      as [[w2 tr2] [h|]]; cbn [fst snd] in *.
    + destruct Hc as (_ & Hge & Hth & Hst). exists h.
      rewrite Hs in Hge. rewrite Hth, Ht.
      repeat split; try done.
      * unfold mark_closed in Hge. destruct (sockets w !! ws); simpl in Hge;
          rewrite ?length_insert in Hge; lia.
      * rewrite receive_starts_app, Hr. exact Hst.
    + destruct Hc as [Hth Hst]. rewrite Hth, Ht. split; [done|].
      rewrite receive_starts_app, Hr. exact Hst.
  - pose proof (connect_starts_one_receive_thread api_key url attempts w1)
      as Hc.
    destruct (connect_and_transcribe api_key url attempts w1)
      as [[w2 tr2] [h|]]; cbn [fst snd] in *.
    + destruct Hc as (_ & Hge & Hth & Hst). exists h.
      rewrite Hs in Hge. rewrite Hth, Ht.
      repeat split; try done.
      * rewrite receive_starts_app, Hr. exact Hst.
    + destruct Hc as [Hth Hst]. rewrite Hth, Ht. split; [done|].
      rewrite receive_starts_app, Hr. exact Hst.
Qed.


(** ** Further properties of the capture loop *)

(** X13: the capture loop over two scripts in a row: the second is run only
    if the thread is still capturing after the first, and then from the
    world the first left and with two frames fewer for each of its passes
    that raised; a thread that has ended runs nothing more. What a
    survived failure leaves behind is the restarted stream and the two
    frames of lines 231 and 253, which are never given back. *)
Theorem listen_and_stream_app :
  forall (frames : nat) (ws : Handle) (s1 s2 : list CaptureOutcome)
         (w : World),
    listen_and_stream frames ws (s1 ++ s2) w
    = match listen_and_stream frames ws s1 w with
      | (w1, tr1, Capturing) =>
          ((listen_and_stream (frames - 2 * capture_failures s1) ws s2
              w1).1.1,
           tr1
             ++ (listen_and_stream (frames - 2 * capture_failures s1) ws s2
                   w1).1.2,
           (listen_and_stream (frames - 2 * capture_failures s1) ws s2 w1).2)
      | ended => ended
      end.
Proof.
  intros frames ws s1 s2. revert frames.
  induction s1 as [|p rest IH]; intros frames w.
  - cbn. rewrite Nat.sub_0_r.
    by destruct (listen_and_stream frames ws s2 w) as [[w1 tr1] status].
  - assert (forall o,
              after_failure frames o
                (fun frames' w' =>
                   listen_and_stream frames' ws (rest ++ s2) w') w
              = match
                  after_failure frames o
                    (fun frames' w' => listen_and_stream frames' ws rest w') w
                with
                | (w1, tr1, Capturing) =>
                    ((listen_and_stream
                        (frames - 2 * S (capture_failures rest)) ws s2
                        w1).1.1,
                     tr1
                       ++ (listen_and_stream
                             (frames - 2 * S (capture_failures rest)) ws s2
                             w1).1.2,
                     (listen_and_stream
                        (frames - 2 * S (capture_failures rest)) ws s2 w1).2)
                | ended => ended
                end) as Hfail.
    { intros o. failure_cases frames o f. cbn -[Nat.sub Nat.mul].
      rewrite IH.
      replace (S (S f) - 2 * S (capture_failures rest))
        with (f - 2 * capture_failures rest) by lia.
      by destruct (listen_and_stream f ws rest _) as [[w1 tr1] [|]]. }
    destruct p as [data|o|data o];
      cbn [app listen_and_stream capture_failures].
    + rewrite IH.
      by destruct (listen_and_stream frames ws rest _) as [[w1 tr1] [|]].
    + apply Hfail.
    + rewrite Hfail.
      by destruct (after_failure frames o _ w) as [[w1 tr1] [|]].
Qed.

(** X14: on a connection the capture loop holds, the frames whose send
    succeeded on the passes the thread made are added to what was sent,
    each once and in the order they were read; a frame whose send raised
    is dropped, not sent again, and nothing of a pass after the one on
    which the thread ended is read or sent. The rest of the socket stays
    as it was. *)
Theorem capture_delivers_in_order :
  forall (frames : nat) (ws : Handle) (script : list CaptureOutcome)
         (w : World) (s : Socket),
    sockets w !! ws = Some s ->
    sockets (listen_and_stream frames ws script w).1.1 !! ws
    = Some {| sock_url := sock_url s;
              sock_header := sock_header s;
              sock_sent :=
                sock_sent s
                  ++ map BinaryFrame
                       (sent_frames (take (passes_made frames script) script));
              sock_open := sock_open s |}.
Proof.
  intros frames ws script. revert frames.
  induction script as [|p rest IH]; intros frames w s Hs.
  - cbn. rewrite app_nil_r, Hs. by destruct s.
  - assert (forall o,
              sockets
                (after_failure frames o
                   (fun frames' w' => listen_and_stream frames' ws rest w')
                   w).1.1 !! ws
              = Some {| sock_url := sock_url s;
                        sock_header := sock_header s;
                        sock_sent :=
                          sock_sent s
                            ++ map BinaryFrame
                                 (sent_frames
                                    (take
                                       (match frames, o with
                                        | S (S frames2), RestartOk =>
                                            passes_made frames2 rest
                                        | _, _ => 0
                                        end) rest));
                        sock_open := sock_open s |}) as Hfail.
    { intros o. unfold after_failure.
      destruct frames as [|[|f]].
      - cbn. rewrite app_nil_r, Hs. by destruct s.
      - destruct o; cbn; rewrite app_nil_r, Hs; by destruct s.
      - destruct o; try (cbn; rewrite app_nil_r, Hs; by destruct s).
        cbn. specialize (IH f (restart_stream RestartOk w).1.1 s Hs).
        cbn in IH.
        by destruct (listen_and_stream f ws rest _) as [[w1 tr1] status]. }
    destruct p as [data|o|data o]; cbn [listen_and_stream passes_made].
    + assert (sockets (deliver ws (BinaryFrame data) w) !! ws
              = Some (mkSocket (sock_url s) (sock_header s)
                               (sock_sent s ++ [BinaryFrame data])
                               (sock_open s))) as Hd.
      { unfold deliver. rewrite Hs. simpl.
        apply list_lookup_insert_eq. by eapply lookup_lt_Some. }
      specialize (IH frames _ _ Hd).
      destruct (listen_and_stream frames ws rest _) as [[w1 tr1] status].
      cbn [fst] in *. rewrite IH. cbn. by rewrite <- app_assoc.
    + rewrite Hfail. by destruct frames as [|[|f]], o.
    + specialize (Hfail o).
      destruct (after_failure frames o _ w) as [[w1 tr1] status].
      cbn [fst] in *. rewrite Hfail. by destruct frames as [|[|f]], o.
Qed.

Lemma capture_delivers_in_order_witness :
  sockets streaming_world !! 0
  = Some (new_socket "secret" "wss://stt.example/v1/recognize"
            [TextFrame init_message]) /\
  sockets
    (listen_and_stream 3 0
       [FrameSent [1%N]; SendFails [2%N] RestartOk; FrameSent [3%N];
        ReadFails RestartOk; FrameSent [4%N]]
       streaming_world).1.1 !! 0
  = Some {| sock_url := "wss://stt.example/v1/recognize";
            sock_header := headers "secret";
            sock_sent :=
              [TextFrame init_message]
                ++ map BinaryFrame
                     (sent_frames
                        (take
                           (passes_made 3
                              [FrameSent [1%N]; SendFails [2%N] RestartOk;
                               FrameSent [3%N]; ReadFails RestartOk;
                               FrameSent [4%N]])
                           [FrameSent [1%N]; SendFails [2%N] RestartOk;
                            FrameSent [3%N]; ReadFails RestartOk;
                            FrameSent [4%N]]));
            sock_open := true |}.
Proof.
  split; [reflexivity|].
  apply (capture_delivers_in_order 3 0
           [FrameSent [1%N]; SendFails [2%N] RestartOk; FrameSent [3%N];
            ReadFails RestartOk; FrameSent [4%N]]
           streaming_world
           (new_socket "secret" "wss://stt.example/v1/recognize"
              [TextFrame init_message])).
  reflexivity.
Defined.

Example capture_stops_at_the_limit :
  sent_frames
    (take
       (passes_made 3
          [FrameSent [1%N]; SendFails [2%N] RestartOk; FrameSent [3%N];
           ReadFails RestartOk; FrameSent [4%N]])
       [FrameSent [1%N]; SendFails [2%N] RestartOk; FrameSent [3%N];
        ReadFails RestartOk; FrameSent [4%N]])
  = [[1%N]; [3%N]] /\
  (listen_and_stream 3 0
     [FrameSent [1%N]; SendFails [2%N] RestartOk; FrameSent [3%N];
      ReadFails RestartOk; FrameSent [4%N]] streaming_world).2
  = CaptureEnded.
Proof. split; reflexivity. Qed.

(** X15: the recursion limit bounds the restarts. Entered with [frames]
    frames to spare, the capture thread opens at most one new microphone
    stream for every two frames (rounded up), however many passes raise;
    while it is still capturing it has opened exactly one stream per pass
    that raised and those passes have used two frames each; with more
    failures than that the thread has ended; and as long as the device
    calls succeed and two frames per failure are there, it is still
    capturing. *)
Theorem capture_restarts_bounded :
  forall (frames : nat) (ws : Handle) (script : list CaptureOutcome)
         (w : World),
    streams_opened w <= streams_opened (listen_and_stream frames ws script w).1.1
    /\
    2 * (streams_opened (listen_and_stream frames ws script w).1.1
         - streams_opened w) <= frames + 1 /\
    ((listen_and_stream frames ws script w).2 = Capturing ->
     streams_opened (listen_and_stream frames ws script w).1.1
     = streams_opened w + capture_failures script /\
     stream_opens (listen_and_stream frames ws script w).1.2
     = capture_failures script /\
     2 * capture_failures script <= frames) /\
    (frames < 2 * capture_failures script ->
     (listen_and_stream frames ws script w).2 = CaptureEnded) /\
    (restarts_succeed script -> 2 * capture_failures script <= frames ->
     (listen_and_stream frames ws script w).2 = Capturing).
Proof.
  intros frames ws script.
  assert (forall frames w,
            streams_opened w
            <= streams_opened (listen_and_stream frames ws script w).1.1 /\
            2 * (streams_opened (listen_and_stream frames ws script w).1.1
                 - streams_opened w) <= frames + 1 /\
            ((listen_and_stream frames ws script w).2 = Capturing ->
             streams_opened (listen_and_stream frames ws script w).1.1
             = streams_opened w + capture_failures script /\
             stream_opens (listen_and_stream frames ws script w).1.2
             = capture_failures script /\
             2 * capture_failures script <= frames) /\
            (restarts_succeed script -> 2 * capture_failures script <= frames ->
             (listen_and_stream frames ws script w).2 = Capturing)) as Hmain.
  { clear frames. induction script as [|p rest IH]; intros frames w.
    - cbn. split; [lia|]. split; [lia|]. split; [|done].
      intros _. cbn. split; [lia|]. split; [done|lia].
    - assert (forall o,
                let r := after_failure frames o
                           (fun frames' w' =>
                              listen_and_stream frames' ws rest w') w in
                streams_opened w <= streams_opened r.1.1 /\
                2 * (streams_opened r.1.1 - streams_opened w) <= frames + 1 /\
                (r.2 = Capturing ->
                 streams_opened r.1.1
                 = streams_opened w + S (capture_failures rest) /\
                 stream_opens r.1.2 = S (capture_failures rest) /\
                 2 * S (capture_failures rest) <= frames) /\
                (o = RestartOk -> restarts_succeed rest ->
                 2 * S (capture_failures rest) <= frames ->
                 r.2 = Capturing)) as Hfail.
      { intros o. unfold after_failure.
        destruct frames as [|[|f]].
        - cbn. split; [lia|]. split; [lia|]. split; [done|]. lia.
        - destruct o; cbn; (split; [lia|]); (split; [lia|]);
            (split; [done|]); lia.
        - destruct o;
            try (cbn; (split; [lia|]); (split; [lia|]); by split).
          cbn -[Nat.mul]. specialize (IH f (restart_stream RestartOk w).1.1).
          cbn -[Nat.mul] in IH.
          destruct (listen_and_stream f ws rest _) as [[w1 tr1] status].
          cbn [fst snd] in *. destruct IH as (I1 & I2 & I3 & I4).
          split; [lia|]. split; [lia|]. split.
          + intros Hc. destruct (I3 Hc) as (E1 & E2 & E3).
            split; [lia|]. split; [|lia].
            unfold stream_opens in *. cbn. by rewrite E2.
          + intros _ Hr Hle. apply I4; [done|lia]. }
      destruct p as [data|o|data o];
        cbn [listen_and_stream capture_failures].
      + specialize (IH frames (deliver ws (BinaryFrame data) w)).
        pose proof (deliver_frame ws (BinaryFrame data) w)
          as (_ & _ & _ & _ & _ & _ & _ & Hd).
        destruct (listen_and_stream frames ws rest _) as [[w1 tr1] status].
        cbn [fst snd] in *. rewrite Hd in IH.
        destruct IH as (I1 & I2 & I3 & I4).
        split; [done|]. split; [done|]. split; [exact I3|].
        intros Hr Hle. apply I4; [|done].
        by apply Forall_cons in Hr as [_ ?].
      + specialize (Hfail o). cbn zeta in Hfail.
        destruct Hfail as (F1 & F2 & F3 & F4).
        split; [done|]. split; [done|]. split; [exact F3|].
        intros Hr Hle. apply Forall_cons in Hr as [Ho Hr]. by apply F4.
      + specialize (Hfail o). cbn zeta in Hfail.
        destruct (after_failure frames o _ w) as [[w1 tr1] status].
        cbn [fst snd] in *. destruct Hfail as (F1 & F2 & F3 & F4).
        split; [done|]. split; [done|]. split.
        * intros Hc. destruct (F3 Hc) as (E1 & E2 & E3).
          split; [done|]. split; [|done].
          unfold stream_opens in *. cbn. exact E2.
        * intros Hr Hle. apply Forall_cons in Hr as [Ho Hr]. by apply F4. }
  intros w. destruct (Hmain frames w) as (H1 & H2 & H3 & H4).
  split; [done|]. split; [done|]. split; [exact H3|]. split; [|exact H4].
  intros Hlt.
  destruct ((listen_and_stream frames ws script w).2) eqn:Hst; [|done].
  destruct (H3 eq_refl) as (_ & _ & ?). lia.
Qed.

(** X16: the capture loop leaves the display and the threads alone: the
    text box, the time of the last update, the threads started, the audio
    system and the window are as before, it displays nothing, and whether
    a socket is open is never changed by it. *)
Theorem capture_keeps_display_and_threads :
  forall (frames : nat) (ws : Handle) (script : list CaptureOutcome)
         (w : World),
    text_box (listen_and_stream frames ws script w).1.1 = text_box w /\
    last_update_time (listen_and_stream frames ws script w).1.1
    = last_update_time w /\
    threads (listen_and_stream frames ws script w).1.1 = threads w /\
    audio_terminated (listen_and_stream frames ws script w).1.1
    = audio_terminated w /\
    root_destroyed (listen_and_stream frames ws script w).1.1
    = root_destroyed w /\
    map sock_open (sockets (listen_and_stream frames ws script w).1.1)
    = map sock_open (sockets w) /\
    displayed (listen_and_stream frames ws script w).1.2 = [].
Proof.
  intros frames ws script. revert frames.
  induction script as [|p rest IH]; intros frames w; [done|].
  assert (forall o,
            let r := after_failure frames o
                       (fun frames' w' =>
                          listen_and_stream frames' ws rest w') w in
            text_box r.1.1 = text_box w /\
            last_update_time r.1.1 = last_update_time w /\
            threads r.1.1 = threads w /\
            audio_terminated r.1.1 = audio_terminated w /\
            root_destroyed r.1.1 = root_destroyed w /\
            map sock_open (sockets r.1.1) = map sock_open (sockets w) /\
            displayed r.1.2 = []) as Hfail.
  { intros o. failure_cases frames o f. cbn.
    specialize (IH f (restart_stream RestartOk w).1.1). cbn in IH.
    by destruct (listen_and_stream f ws rest _) as [[w1 tr1] status]. }
  destruct p as [data|o|data o]; cbn [listen_and_stream].
  - specialize (IH frames (deliver ws (BinaryFrame data) w)).
    destruct (listen_and_stream frames ws rest _) as [[w1 tr1] status].
    cbn [fst snd] in *.
    destruct IH as (IH1 & IH2 & IH3 & IH4 & IH5 & IH6 & IH7).
    pose proof (deliver_frame ws (BinaryFrame data) w)
      as (Hd1 & Hd2 & Hd3 & Hd4 & Hd5 & Hd6 & _).
    rewrite IH1, IH2, IH3, IH4, IH5, IH6. done.
  - apply Hfail.
  - specialize (Hfail o). cbn zeta in Hfail.
    by destruct (after_failure frames o _ w) as [[w1 tr1] status].
Qed.

(** ** Start-up *)

Lemma connect_returns_open_socket (api_key url : string)
    (attempts : list ConnectOutcome) (w : World) (ws : Handle) :
  (connect_and_transcribe api_key url attempts w).2 = Some ws ->
  sockets (connect_and_transcribe api_key url attempts w).1.1 !! ws
  = Some (new_socket api_key url [TextFrame init_message]).
Proof.
  revert w. induction attempts as [|o rest IH]; intros w; simpl; [done|].
  destruct o; simpl.
  - intros [= <-]. by rewrite lookup_app_r, Nat.sub_diag.
  - specialize (IH w).
    by destruct (connect_and_transcribe api_key url rest w) as [[w2 tr2] r2].
  - specialize (IH (set_sockets (sockets w ++ [new_socket api_key url []]) w)).
    by destruct (connect_and_transcribe api_key url rest _) as [[w2 tr2] r2].
Qed.

(** X17: start-up starts the capture thread only once it is connected, and
    on the very handle the receive thread was given: when [main] has a
    handle, the threads are those before followed by the receive thread
    and the capture thread of that handle, whose connection is open with
    the start message sent; while it is still retrying no thread has been
    started at all. *)
Theorem main_starts_both_threads :
  forall (api_key url : string) (attempts : list ConnectOutcome) (w : World),
    match (main api_key url attempts w).2 with
    | Some ws =>
        threads (main api_key url attempts w).1.1
        = threads w ++ [ReceiveThread ws; CaptureThread ws] /\
        sockets (main api_key url attempts w).1.1 !! ws
        = Some (new_socket api_key url [TextFrame init_message]) /\
        receive_starts (main api_key url attempts w).1.2 = [ws] /\
        capture_starts (main api_key url attempts w).1.2 = [ws]
    | None =>
        threads (main api_key url attempts w).1.1 = threads w /\
        receive_starts (main api_key url attempts w).1.2 = [] /\
        capture_starts (main api_key url attempts w).1.2 = [] /\
        Forall (fun o => o <> ConnectOk) attempts
    end.
Proof.
  intros api_key url attempts w. unfold main.
  pose proof (connect_starts_one_receive_thread api_key url attempts w) as Hc.
  pose proof (connect_starts_no_capture api_key url attempts w) as Hn.
  pose proof (connect_returns_open_socket api_key url attempts w) as Ho.
  pose proof (connect_returns_on_first_success api_key url attempts w)
    as [Hnone _].
  destruct (connect_and_transcribe api_key url attempts w)
    as [[w1 tr] [ws|]]; cbn [fst snd] in *.
  - destruct Hc as (_ & _ & Hth & Hst).
    rewrite Hth, <- app_assoc, receive_starts_app, capture_starts_app, Hst, Hn.
    repeat split; try done. by apply Ho.
  - destruct Hc as [Hth Hst]. repeat split; try done. by apply Hnone.
Qed.

Ltac config_cases :=
  repeat split; intros;
  repeat match goal with
         | H : _ /\ _ |- _ => destruct H
         | H : _ \/ _ |- _ => destruct H
         | H : ex _ |- _ => destruct H
         | H : inr _ = inr _ |- _ => inversion H; clear H; subst
         | H : Some _ = Some _ |- _ => inversion H; clear H; subst
         end;
  try congruence; eauto 6.

(** X18: start-up has a key and a URL exactly when both variables are set
    and not empty; a key that is unset or empty is reported as such
    whatever the URL is, and the URL is only looked at after the key. *)
Theorem load_config_cases :
  forall (API_KEY URL : option string),
    (forall k u : string,
       load_config API_KEY URL = inr (k, u)
       <-> API_KEY = Some k /\ URL = Some u /\ k <> "" /\ u <> "") /\
    (load_config API_KEY URL = inl ApiKeyNotSet
     <-> API_KEY = None \/ API_KEY = Some "") /\
    (load_config API_KEY URL = inl UrlNotSet
     <-> (exists k : string, API_KEY = Some k /\ k <> "")
         /\ (URL = None \/ URL = Some "")).
Proof.
  intros API_KEY URL. unfold load_config.
  destruct API_KEY as [k0|]; [|by config_cases].
  destruct (str_ne k0 "") eqn:Hk.
  - apply str_ne_true in Hk.
    destruct URL as [u0|]; [|by config_cases].
    destruct (str_ne u0 "") eqn:Hu.
    + apply str_ne_true in Hu. config_cases.
    + apply str_ne_false in Hu. subst u0. config_cases.
  - apply str_ne_false in Hk. subst k0. config_cases.
Qed.

(** ** The Authorization header *)

Lemma sextet_table :
  forallb
    (fun n =>
       match Base64Read.sextet_index (Base64.sextet n) with
       | Some m => N.eqb m n
       | None => false
       end && negb (Ascii.eqb (Base64.sextet n) Base64.pad))
    (map N.of_nat (seq 0 64)) = true.
Proof. vm_compute. reflexivity. Qed.

Lemma sextet_index_sextet (n : N) :
  (n < 64)%N ->
  Base64Read.sextet_index (Base64.sextet n) = Some n /\
  Ascii.eqb (Base64.sextet n) Base64.pad = false.
Proof.
  intros Hn. pose proof sextet_table as Ht.
  rewrite forallb_forall in Ht.
  specialize (Ht n). 
  assert (In n (map N.of_nat (seq 0 64))) as Hin.
  { apply in_map_iff. exists (N.to_nat n). split; [lia|].
    apply in_seq. lia. }
  specialize (Ht Hin). apply andb_true_iff in Ht as [H1 H2].
  apply negb_true_iff in H2. split; [|done].
  destruct (Base64Read.sextet_index (Base64.sextet n)) as [m|]; [|done].
  apply N.eqb_eq in H1. by subst.
Qed.

Ltac Zify.zify_post_hook ::= Z.to_euclidean_division_equations.

Lemma group_arith (a b c : N) :
  (a < 256 -> b < 256 -> c < 256 ->
   a / 4 < 64 /\ (a mod 4) * 16 + b / 16 < 64 /\
   (b mod 16) * 4 + c / 64 < 64 /\ c mod 64 < 64 /\
   (a / 4) * 4 + ((a mod 4) * 16 + b / 16) / 16 = a /\
   (((a mod 4) * 16 + b / 16) mod 16) * 16 + ((b mod 16) * 4 + c / 64) / 4 = b /\
   (((b mod 16) * 4 + c / 64) mod 4) * 64 + c mod 64 = c)%N.
Proof. intros. repeat split; lia. Qed.

Lemma group_arith_two (a b : N) :
  (a < 256 -> b < 256 ->
   (b mod 16) * 4 < 64 /\
   (((a mod 4) * 16 + b / 16) mod 16) * 16 + ((b mod 16) * 4) / 4 = b)%N.
Proof. intros. repeat split; lia. Qed.

Lemma group_arith_one (a : N) :
  (a < 256 ->
   (a mod 4) * 16 < 64 /\ (a / 4) * 4 + ((a mod 4) * 16) / 16 = a)%N.
Proof. intros. repeat split; lia. Qed.

Lemma list_ind3 {A : Type} (P : list A -> Prop) :
  P [] -> (forall a, P [a]) -> (forall a b, P [a; b]) ->
  (forall a b c l, P l -> P (a :: b :: c :: l)) ->
  forall l, P l.
Proof.
  intros H0 H1 H2 H3. fix IH 1. intros [|a [|b [|c l]]].
  - exact H0.
  - apply H1.
  - apply H2.
  - apply H3. apply IH.
Qed.

Lemma decode_encode_bytes (bs : list N) :
  Forall (fun b => (b < 256)%N) bs ->
  Base64Read.decode_chars (Base64.encode_bytes bs) = Some bs.
Proof.
  induction bs as [|a|a b|a b c rest IH] using list_ind3; intros Hall.
  - done.
  - apply Forall_cons in Hall as [Ha _].
    destruct (group_arith a 0 0) as (L1 & _ & _ & _ & _); [done..|].
    destruct (group_arith_one a Ha) as [L2 E1].
    destruct (sextet_index_sextet _ L1) as [I1 _].
    destruct (sextet_index_sextet _ L2) as [I2 _].
    cbn [Base64.encode_bytes Base64Read.decode_chars].
    rewrite I1, I2, E1. done.
  - apply Forall_cons in Hall as [Ha Hall].
    apply Forall_cons in Hall as [Hb _].
    destruct (group_arith a b 0) as (L1 & L2 & _ & _ & E1 & _); [done..|].
    destruct (group_arith_two a b Ha Hb) as [L3 E2].
    destruct (sextet_index_sextet _ L1) as [I1 _].
    destruct (sextet_index_sextet _ L2) as [I2 _].
    destruct (sextet_index_sextet _ L3) as [I3 P3].
    cbn [Base64.encode_bytes Base64Read.decode_chars].
    rewrite I1, I2, P3, I3, E1, E2. done.
  - apply Forall_cons in Hall as [Ha Hall].
    apply Forall_cons in Hall as [Hb Hall].
    apply Forall_cons in Hall as [Hc Hall].
    destruct (group_arith a b c) as (L1 & L2 & L3 & L4 & E1 & E2 & E3);
      [done..|].
    destruct (sextet_index_sextet _ L1) as [I1 _].
    destruct (sextet_index_sextet _ L2) as [I2 _].
    destruct (sextet_index_sextet _ L3) as [I3 P3].
    destruct (sextet_index_sextet _ L4) as [I4 P4].
    cbn [Base64.encode_bytes Base64Read.decode_chars].
    rewrite I1, I2, P3, I3, P4, I4, (IH Hall), E1, E2, E3. done.
Qed.

(** X19: base64 loses nothing: reading the encoded text back gives the
    string that was encoded, for every string. *)
Theorem b64decode_b64encode :
  forall s : string, Base64Read.b64decode (Base64.b64encode s) = Some s.
Proof.
  intros s. unfold Base64Read.b64decode, Base64.b64encode.
  rewrite String.list_ascii_of_string_of_list_ascii.
  rewrite decode_encode_bytes.
  - rewrite List.map_map.
    rewrite (List.map_ext _ (fun a => a)); [|apply ascii_N_embedding].
    by rewrite List.map_id, String.string_of_list_ascii_of_string.
  - apply List.Forall_forall. intros b [a [<- _]]%in_map_iff.
    apply N_ascii_bounded.
Qed.

Lemma append_inj_r (p a b : string) : p +:+ a = p +:+ b -> a = b.
Proof.
  induction p as [|c p IH]; [done|]. simpl. intros [= H]. by apply IH.
Qed.

Lemma singleton_inj {A : Type} (x y : A) : [x] = [y] -> x = y.
Proof. by intros [= ->]. Qed.

(** X20: the Authorization header carries the key and nothing is lost of
    it: the base64 part reads back as "apikey:" followed by the key, and two
    keys with the same header are the same key. *)
Theorem auth_header_determines_key :
  forall k1 k2 : string,
    Base64Read.b64decode (auth_base64 k1) = Some ("apikey:" +:+ k1) /\
    (headers k1 = headers k2 -> k1 = k2).
Proof.
  intros k1 k2. split; [apply b64decode_b64encode|].
  unfold headers. intros H. apply singleton_inj in H.
  apply append_inj_r in H.
  assert (Some (auth_string k1) = Some (auth_string k2)) as Heq.
  { unfold auth_base64 in H. by rewrite <- !b64decode_b64encode, H. }
  apply (inj Some) in Heq. unfold auth_string in Heq.
  by apply append_inj_r in Heq.
Qed.

Lemma length_string_of_list_ascii (l : list ascii) :
  String.length (String.string_of_list_ascii l) = length l.
Proof. induction l as [|c l IH]; [done|]. simpl. by rewrite IH. Qed.

Lemma length_list_ascii_of_string (s : string) :
  length (String.list_ascii_of_string s) = String.length s.
Proof. induction s as [|c s IH]; [done|]. simpl. by rewrite IH. Qed.

Lemma length_encode_bytes (bs : list N) :
  length (Base64.encode_bytes bs) = 4 * ((length bs + 2) / 3).
Proof.
  induction bs as [|a|a b|a b c rest IH] using list_ind3; [done..|].
  cbn [Base64.encode_bytes length]. rewrite IH.
  replace (S (S (S (length rest))) + 2) with ((length rest + 2) + 1 * 3)
    by lia.
  rewrite Nat.div_add by lia. lia.
Qed.

(** X21: the encoded text is four characters for every three bytes, the
    last group padded to four: its length is four times the number of
    groups, so the base64 part of the header is never empty for a key, and
    always a multiple of four long. *)
Theorem b64encode_length :
  forall s : string,
    String.length (Base64.b64encode s) = 4 * ((String.length s + 2) / 3) /\
    forall k : string, 12 <= String.length (auth_base64 k).
Proof.
  assert (forall s : string,
            String.length (Base64.b64encode s)
            = 4 * ((String.length s + 2) / 3)) as Hlen.
  { intros s. unfold Base64.b64encode.
    rewrite length_string_of_list_ascii, length_encode_bytes.
    by rewrite length_map, length_list_ascii_of_string. }
  intros s. split; [apply Hlen|].
  intros k. unfold auth_base64, auth_string. rewrite Hlen.
  assert (String.length ("apikey:" +:+ k) = 7 + String.length k) as ->.
  { done. }
  assert (3 <= (7 + String.length k + 2) / 3); [|lia].
  apply Nat.div_le_lower_bound; lia.
Qed.

(** ** Finals across interim results *)

Lemma reconcile_step_commits (r : Recognition) (st : TranscriptState) :
  commits (option_list (reconcile r st).2)
  = (if is_final r
     then if decide (transcript r = last_final st) then []
          else [CommitLine (transcript r +:+ " ")]
     else []) /\
  last_final (reconcile r st).1
  = (if is_final r then transcript r else last_final st).
Proof.
  unfold reconcile. destruct (is_final r).
  - case_decide as Heq.
    + rewrite Heq, str_ne_refl. done.
    + apply str_ne_true in Heq. by rewrite Heq.
  - by destruct (str_ne (transcript r) (last_partial st)).
Qed.

(** X23: across any mix of interim and final results, the finals committed
    are exactly the final texts that differ from the final text before
    them (for the first, from the state's [last_final]), each followed by a
    space: interim results in between neither let a final be committed
    twice nor make one be dropped. The state's [last_final] ends as the
    text of the last final result received. *)
Theorem finals_committed_once :
  forall (rs : list Recognition) (st : TranscriptState),
    commits (reconcile_all rs st).2
    = map (fun t => CommitLine (t +:+ " ")) (changes (last_final st) (finals rs))
    /\
    last_final (reconcile_all rs st).1
    = default (last_final st) (last (finals rs)).
Proof.
  induction rs as [|r rs IH]; intros st; [done|].
  rewrite reconcile_all_cons. cbn [fst snd].
  pose proof (reconcile_step_commits r st) as [Hc Hl].
  specialize (IH (reconcile r st).1). destruct IH as [IH1 IH2].
  unfold commits in *. rewrite List.filter_app, Hc, IH1, IH2, Hl.
  unfold finals. simpl. destruct (is_final r); simpl.
  - split.
    + case_decide as Heq; [by rewrite Heq|done].
    + rewrite last_cons.
      by destruct (last (map transcript (List.filter is_final rs))).
  - done.
Qed.

(** ** The waits and sends of a receive thread *)

Lemma show_recognition_quiet (r : Recognition) (now : Timestamp)
    (st : TranscriptState) (w : World) :
  sleeps (show_recognition r now st w).2 = [] /\
  connections (show_recognition r now st w).2 = [] /\
  forall h : Handle, sends_on h (show_recognition r now st w).2 = [].
Proof.
  unfold show_recognition. by destruct (reconcile r st) as [st1 [[s|s]|]].
Qed.

Lemma receive_loop_quiet (ws : Handle) (st : TranscriptState)
    (script : list RecvOutcome) (w : World) :
  sleeps (receive_loop ws st script w).2 = [] /\
  connections (receive_loop ws st script w).2 = [] /\
  forall h : Handle, sends_on h (receive_loop ws st script w).2 = [].
Proof.
  revert st w. induction script as [|o rest IH]; intros st w; [done|].
  destruct o as [d now| |]; [|done|done].
  cbn [receive_loop]. destruct (d !! "results"); [|by apply IH].
  destruct (first_recognition d) as [| |r]; [loop_stops|loop_stops|].
  pose proof (show_recognition_quiet r now st w) as (Hs & Hc & Hn).
  destruct (show_recognition r now st w) as [[st1 w1] tr1].
  specialize (IH st1 w1).
  destruct (receive_loop ws st1 rest w1) as [[e w2] tr2].
  cbn [fst snd] in *. destruct IH as (IHs & IHc & IHn).
  rewrite sleeps_app, connections_app, Hs, Hc, IHs, IHc.
  repeat split. intros h. by rewrite sends_on_app, Hn, IHn.
Qed.

(** X22: a receive thread whose connection was closed by the peer
    reconnects at once, one that met any other exception waits two seconds
    first; after that the only waits are the two seconds after each failed
    attempt. It never sends on a connection that existed when it started:
    the loop itself only receives and displays. *)
Theorem reconnect_waits :
  forall (api_key url : string) (ws : Handle) (script : list RecvOutcome)
         (attempts : list ConnectOutcome) (w : World),
    sleeps (receive_transcription api_key url ws script attempts w).1.2
    = match (receive_loop ws empty_transcript script w).1.1 with
      | AwaitingMessage _ => []
      | ConnectionClosed => replicate (failed_before attempts) 2
      | ConnectionError => 2 :: replicate (failed_before attempts) 2
      end /\
    (forall h : Handle,
       h < length (sockets w) ->
       sends_on h (receive_transcription api_key url ws script attempts w).1.2
       = []).
Proof.
  intros api_key url ws script attempts w. unfold receive_transcription.
  pose proof (receive_loop_quiet ws empty_transcript script w) as (Hs & _ & Hn).
  pose proof (receive_loop_frame ws empty_transcript script w) as (Hk & _ & _).
  destruct (receive_loop ws empty_transcript script w) as [[e w1] tr1].
  cbn [fst snd] in *.
  assert (length (sockets w1) = length (sockets w)) as Hlen.
  { rewrite Hk. destruct e; try done. unfold mark_closed.
    destruct (sockets w !! ws); [|done]. simpl. by rewrite length_insert. }
  destruct e as [st| |]; [by split| |].
  - pose proof (connect_waits_two_seconds api_key url attempts w1) as [Hw _].
    pose proof (connect_handles api_key url attempts w1) as Hh.
    destruct (connect_and_transcribe api_key url attempts w1) as [[w2 tr2] r].
    cbn [fst snd] in *. split.
    + by rewrite !sleeps_app, Hs, Hw.
    + intros h Hlt. rewrite !sends_on_app, Hn.
      rewrite (sends_on_below (length (sockets w1)) h tr2); [done|lia|done].
  - pose proof (connect_waits_two_seconds api_key url attempts w1) as [Hw _].
    pose proof (connect_handles api_key url attempts w1) as Hh.
    destruct (connect_and_transcribe api_key url attempts w1) as [[w2 tr2] r].
    cbn [fst snd] in *. split.
    + by rewrite !sleeps_app, Hs, Hw.
    + intros h Hlt. rewrite !sends_on_app, Hn.
      rewrite (sends_on_below (length (sockets w1)) h tr2); [done|lia|done].
Qed.
